(** * A shallow embedding of the post service (app/auth.py, app/models.py,
      app/routers/users.py, app/routers/posts.py, app/main.py)

    The Python handlers are translated into a small exception-and-state
    monad [M].  The third-party libraries the handlers call (PyJWT, bcrypt /
    passlib, cachetools, SQLAlchemy) are not part of the repository; they are
    represented by the interface [Libraries] (token codec and password
    hashing), by an executable model of [cachetools.TTLCache], and by a
    unit-of-work model of a SQLAlchemy session over two tables.

    Time is counted in whole seconds (the resolution of the [exp] claim).
    Requests are handled one at a time: a handler runs to completion before
    the next request starts. *)

From stdpp Require Import base option list strings gmap pretty.
From Stdlib Require Import ZArith Lia Ascii.

Local Open Scope Z_scope.

(* ===================================================================== *)
(** ** Python built-ins used by the handlers *)
(* ===================================================================== *)

(** [s.split(" ")]: split on every single space; consecutive separators
    give empty fields and the empty string gives one empty field. *)
Fixpoint split_on (sep : ascii) (s : string) : list string :=
  match s with
  | EmptyString => [EmptyString]
  | String c s' =>
      if Ascii.eqb c sep then EmptyString :: split_on sep s'
      else match split_on sep s' with
           | [] => [String c EmptyString]
           | w :: ws => String c w :: ws
           end
  end.

Definition split_space (s : string) : list string := split_on " "%char s.

(** [datetime.timedelta], in seconds. *)
Definition timedelta : Type := Z.
Definition timedelta_hours (h : Z) : timedelta := 3600 * h.
Definition timedelta_days (d : Z) : timedelta := 86400 * d.

(** Truth value of an [Optional[timedelta]]: [None] and [timedelta(0)] are
    both false. *)
Definition truthy_timedelta (d : option timedelta) : bool :=
  match d with
  | None => false
  | Some z => negb (z =? 0)
  end.

(** Values stored in a token payload (a JSON object). *)
Inductive json : Type :=
| JStr (s : string)
| JNum (n : Z).

#[global] Instance json_eq_dec : EqDecision json.
Proof. solve_decision. Defined.

Abbreviation payload := (gmap string json).

(* ===================================================================== *)
(** ** app/models.py: rows of the two tables *)
(* ===================================================================== *)

Record User : Type := mkUser {
  user_id : Z;
  user_email : string;
  user_hashed_password : string
}.

Record Post : Type := mkPost {
  post_id : Z;
  post_user_id : Z;
  post_text : string
}.

#[global] Instance User_eq_dec : EqDecision User.
Proof. solve_decision. Defined.

#[global] Instance Post_eq_dec : EqDecision Post.
Proof. solve_decision. Defined.

(** The database: both tables in row order, and the two id sequences. *)
Record DB : Type := mkDB {
  db_users : list User;
  db_posts : list Post;
  db_user_seq : Z;
  db_post_seq : Z
}.

Definition empty_db : DB :=
  {| db_users := []; db_posts := []; db_user_seq := 1; db_post_seq := 1 |}.

(** Objects attached to a session.  A freshly constructed model object has
    no primary key until it is flushed. *)
Inductive sobj : Type :=
| SUser (id : option Z) (email hashed_password : string)
| SPost (id : option Z) (uid : Z) (text : string).

Record Session : Type := mkSession {
  s_objects : list sobj;
  s_deleted : list Z
}.

Definition SessionLocal : Session := {| s_objects := []; s_deleted := [] |}.

(** Flushing inserts every pending object with the next value of its
    table's sequence. *)
Fixpoint flush (objs : list sobj) (db : DB) : list sobj * DB :=
  match objs with
  | [] => ([], db)
  | SUser None e h :: rest =>
      let i := db_user_seq db in
      let db1 := {| db_users := db_users db ++ [mkUser i e h];
                    db_posts := db_posts db;
                    db_user_seq := i + 1;
                    db_post_seq := db_post_seq db |} in
      let '(rest', db2) := flush rest db1 in
      (SUser (Some i) e h :: rest', db2)
  | SPost None u t :: rest =>
      let i := db_post_seq db in
      let db1 := {| db_users := db_users db;
                    db_posts := db_posts db ++ [mkPost i u t];
                    db_user_seq := db_user_seq db;
                    db_post_seq := i + 1 |} in
      let '(rest', db2) := flush rest db1 in
      (SPost (Some i) u t :: rest', db2)
  | o :: rest =>
      let '(rest', db2) := flush rest db in
      (o :: rest', db2)
  end.

(** DELETE FROM posts WHERE id = i, for every id marked deleted. *)
Definition delete_rows (ids : list Z) (db : DB) : DB :=
  {| db_users := db_users db;
     db_posts := filter (λ p, post_id p ∉ ids) (db_posts db);
     db_user_seq := db_user_seq db;
     db_post_seq := db_post_seq db |}.

Definition is_persistent (o : sobj) : bool :=
  match o with
  | SUser (Some _) _ _ | SPost (Some _) _ _ => true
  | _ => false
  end.

(* ===================================================================== *)
(** ** cachetools.TTLCache(maxsize=1000, ttl=300) *)
(* ===================================================================== *)

(** One entry; the list is kept in the order of the cache's key table
    (least recently used first). *)
Record Link : Type := mkLink {
  link_key : string;
  link_value : list Post;
  link_expires : Z
}.

Abbreviation TTLCache := (list Link).

Definition cache_maxsize : nat := 1000.
Definition cache_ttl : Z := 300.

Definition links_find (k : string) (c : TTLCache) : option Link :=
  head (filter (λ l, link_key l = k) c).

Definition links_remove (k : string) (c : TTLCache) : TTLCache :=
  filter (λ l, link_key l ≠ k) c.

(** [key in cache] *)
Definition ttl_contains (c : TTLCache) (k : string) (time : Z) : bool :=
  match links_find k c with
  | Some l => bool_decide (time < link_expires l)
  | None => false
  end.

(** [cache[key]]: the entry is moved to the end of the key table, then its
    expiry is checked; [None] stands for [KeyError]. *)
Definition ttl_getitem (c : TTLCache) (k : string) (time : Z)
  : option (list Post) * TTLCache :=
  match links_find k c with
  | None => (None, c)
  | Some l =>
      let c' := links_remove k c ++ [l] in
      if bool_decide (time < link_expires l) then (Some (link_value l), c')
      else (None, c')
  end.

(** [cache.expire(time)] *)
Definition ttl_expire (c : TTLCache) (time : Z) : TTLCache :=
  filter (λ l, time < link_expires l) c.

(** The loop [while currsize + 1 > maxsize: popitem()] of
    [Cache.__setitem__]; [popitem] drops the first key of the table. *)
Fixpoint ttl_evict (c : TTLCache) : TTLCache :=
  match c with
  | [] => []
  | l :: c' =>
      if bool_decide (cache_maxsize < length c + 1)%nat then ttl_evict c'
      else c
  end.

(** [cache[key] = value] *)
Definition ttl_setitem (c : TTLCache) (k : string) (v : list Post) (time : Z)
  : TTLCache :=
  let c1 := ttl_expire c time in
  let c2 := match links_find k c1 with
            | Some _ => c1
            | None => ttl_evict c1
            end in
  links_remove k c2 ++ [mkLink k v (time + cache_ttl)].

(** [cache.pop(key, None)] *)
Definition ttl_pop (c : TTLCache) (k : string) (time : Z) : TTLCache :=
  if ttl_contains c k time then links_remove k c else c.

(* ===================================================================== *)
(** ** Exceptions *)
(* ===================================================================== *)

(** The exception classes of PyJWT that [jwt.decode] can raise. *)
Inductive jwt_error : Type :=
| ExpiredSignatureError
| InvalidSignatureError
| DecodeError
| ImmatureSignatureError
| InvalidAlgorithmError
| InvalidKeyError.

Inductive exn : Type :=
| HTTPException (status_code : Z) (detail : string)
                (headers : list (string * string))
| ValueError (msg : string)
| KeyError (key : string)
| PyJWTError (e : jwt_error)
| SQLAlchemyError (msg : string).

(** [isinstance] tests for the classes named in [except] clauses. *)
Definition is_ExpiredSignatureError (e : exn) : bool :=
  match e with PyJWTError ExpiredSignatureError => true | _ => false end.

Definition is_InvalidTokenError (e : exn) : bool :=
  match e with
  | PyJWTError InvalidKeyError => false
  | PyJWTError _ => true
  | _ => false
  end.

Definition is_PyJWTError (e : exn) : bool :=
  match e with PyJWTError _ => true | _ => false end.

Definition is_ValueError (e : exn) : bool :=
  match e with ValueError _ => true | _ => false end.

(** Every class above derives from [Exception]. *)
Definition is_Exception (e : exn) : bool := true.

Definition jwt_error_str (e : jwt_error) : string :=
  match e with
  | ExpiredSignatureError => "Signature has expired"
  | InvalidSignatureError => "Signature verification failed"
  | DecodeError => "Not enough segments"
  | ImmatureSignatureError => "The token is not yet valid (nbf)"
  | InvalidAlgorithmError => "The specified alg value is not allowed"
  | InvalidKeyError => "Invalid key"
  end.

(** [str(e)] *)
Definition exn_str (e : exn) : string :=
  match e with
  | HTTPException s d _ => pretty s +:+ ": " +:+ d
  | ValueError m => m
  | KeyError k => "'" +:+ k +:+ "'"
  | PyJWTError j => jwt_error_str j
  | SQLAlchemyError m => m
  end.

Definition HTTP_200_OK : Z := 200.
Definition HTTP_201_CREATED : Z := 201.
Definition HTTP_204_NO_CONTENT : Z := 204.
Definition HTTP_400_BAD_REQUEST : Z := 400.
Definition HTTP_401_UNAUTHORIZED : Z := 401.
Definition HTTP_404_NOT_FOUND : Z := 404.
Definition HTTP_500_INTERNAL_SERVER_ERROR : Z := 500.

Definition www_authenticate : list (string * string) :=
  [("WWW-Authenticate", "Bearer")].

(* ===================================================================== *)
(** ** The handler monad *)
(* ===================================================================== *)

(** What a request reads from its environment: the wall clock, the
    monotonic clock of the cache, whether the database accepts the commit,
    and the salt drawn by the password hasher.  Each clock has one reading
    per request.  Reads of the database always succeed; a commit may be
    refused, in which case nothing is written. *)
Record Env : Type := mkEnv {
  env_utcnow : Z;
  env_monotonic : Z;
  env_commit_ok : bool;
  env_salt : string
}.

(** Calls into the token library and the user table, in program order. *)
Inductive event : Type :=
| EvJwtDecode (token : string)
| EvQueryUser.

Record World : Type := mkWorld {
  w_db : DB;
  w_session : Session;
  w_cache : TTLCache;
  w_log : list event
}.

Inductive outcome (A : Type) : Type :=
| Return (a : A)
| Raise (e : exn).
Arguments Return {A} a.
Arguments Raise {A} e.

Definition M (A : Type) : Type := Env → World → outcome A * World.

#[global] Instance M_ret : MRet M := λ A a _ w, (Return a, w).

#[global] Instance M_bind : MBind M := λ A B f m env w,
  match m env w with
  | (Return a, w') => f a env w'
  | (Raise e, w') => (Raise e, w')
  end.

Definition raise {A} (e : exn) : M A := λ _ w, (Raise e, w).

(** [try: body  except C1: h1  except C2: h2 ...]: the first clause whose
    class test accepts the exception handles it. *)
Fixpoint select_clause {A} (clauses : list ((exn → bool) * (exn → M A)))
  (e : exn) : option (M A) :=
  match clauses with
  | [] => None
  | (test, h) :: rest => if test e then Some (h e) else select_clause rest e
  end.

Definition try_except {A} (body : M A)
  (clauses : list ((exn → bool) * (exn → M A))) : M A := λ env w,
  match body env w with
  | (Return a, w') => (Return a, w')
  | (Raise e, w') =>
      match select_clause clauses e with
      | Some h => h env w'
      | None => (Raise e, w')
      end
  end.

(** [if cond: stmt] followed by more statements. *)
Definition when (c : bool) (m : M ()) : M () := if c then m else mret ().

Definition ask : M Env := λ env w, (Return env, w).
Definition get_world : M World := λ _ w, (Return w, w).

Definition log (ev : event) : M () := λ _ w,
  (Return (), {| w_db := w_db w; w_session := w_session w;
                 w_cache := w_cache w; w_log := w_log w ++ [ev] |}).

Definition set_session (s : Session) : M () := λ _ w,
  (Return (), {| w_db := w_db w; w_session := s;
                 w_cache := w_cache w; w_log := w_log w |}).

Definition set_db (d : DB) : M () := λ _ w,
  (Return (), {| w_db := d; w_session := w_session w;
                 w_cache := w_cache w; w_log := w_log w |}).

Definition set_cache (c : TTLCache) : M () := λ _ w,
  (Return (), {| w_db := w_db w; w_session := w_session w;
                 w_cache := c; w_log := w_log w |}).

(** [a, b = xs]: unpacking a list into exactly two names. *)
Definition unpack2 (xs : list string) : M (string * string) :=
  match xs with
  | [a; b] => mret (a, b)
  | [] | [_] => raise (ValueError "not enough values to unpack (expected 2)")
  | _ => raise (ValueError "too many values to unpack (expected 2)")
  end.

(* ===================================================================== *)
(** ** The third-party libraries, as an interface *)
(* ===================================================================== *)

(** [jwt.encode] and [jwt.decode] with the process-wide [SECRET_KEY] and
    [ALGORITHM]; [jwt_decode] also receives the wall clock it checks [exp]
    against.  [pwd_context_hash salt password] is passlib's bcrypt hash and
    [bcrypt_checkpw password hashed] is [bcrypt.checkpw]. *)
Class Libraries : Type := {
  jwt_encode : payload → string;
  jwt_decode : string → Z → payload + jwt_error;
  pwd_context_hash : string → string → string;
  bcrypt_checkpw : string → string → bool
}.

(** What the handlers rely on.  A token made by [jwt_encode] from a subject
    and an expiry decodes to the same payload strictly before the expiry and
    is reported expired strictly after it. *)
Definition jwt_roundtrip (L : Libraries) : Prop :=
  ∀ (sub : string) (exp now : Z),
    let p : payload := <["exp" := JNum exp]> {["sub" := JStr sub]} in
    (now < exp → jwt_decode (jwt_encode p) now = inl p) ∧
    (exp < now → jwt_decode (jwt_encode p) now = inr ExpiredSignatureError).



(* ===================================================================== *)
(** ** Primitive operations of the handlers *)
(* ===================================================================== *)

(** [datetime.now(timezone.utc)] *)
Definition datetime_now : M Z := env ← ask; mret (env_utcnow env).

(** [jwt.decode(token, SECRET_KEY, algorithms=[ALGORITHM])] *)
Definition jwt_decode_call `{L : Libraries} (token : string) : M payload :=
  log (EvJwtDecode token);;
  env ← ask;
  match jwt_decode token (env_utcnow env) with
  | inl p => mret p
  | inr e => raise (PyJWTError e)
  end.

(** [db.query(User).filter(f).first()] *)
Definition db_users_first (f : User → bool) : M (option User) :=
  log EvQueryUser;;
  w ← get_world;
  mret (head (filter (λ u, f u) (db_users (w_db w)))).

(** [db.query(Post).filter(f).first()] *)
Definition db_posts_first (f : Post → bool) : M (option Post) :=
  w ← get_world;
  mret (head (filter (λ p, f p) (db_posts (w_db w)))).

(** [db.query(Post).filter(f).all()] *)
Definition db_posts_all (f : Post → bool) : M (list Post) :=
  w ← get_world;
  mret (filter (λ p, f p) (db_posts (w_db w))).

(** [db.add(obj)]; the result is the position of the object in the
    session, which stands for the Python reference to it. *)
Definition db_add (o : sobj) : M nat :=
  w ← get_world;
  let s := w_session w in
  set_session {| s_objects := s_objects s ++ [o]; s_deleted := s_deleted s |};;
  mret (length (s_objects s)).

(** [db.delete(post)] *)
Definition db_delete (p : Post) : M () :=
  w ← get_world;
  let s := w_session w in
  set_session {| s_objects := s_objects s;
                 s_deleted := s_deleted s ++ [post_id p] |}.

(** [db.commit()]: either everything pending is written, or nothing is and
    the call raises. *)
Definition db_commit : M () :=
  env ← ask;
  w ← get_world;
  if env_commit_ok env then
    let s := w_session w in
    let '(objs, db1) := flush (s_objects s) (w_db w) in
    set_db (delete_rows (s_deleted s) db1);;
    set_session {| s_objects := objs; s_deleted := [] |}
  else raise (SQLAlchemyError "commit failed").

(** [db.rollback()] *)
Definition db_rollback : M () :=
  w ← get_world;
  let s := w_session w in
  set_session {| s_objects := filter (λ o, is_persistent o) (s_objects s);
                 s_deleted := [] |}.

(** [db.refresh(user)] *)
Definition db_refresh_user (h : nat) : M User :=
  w ← get_world;
  match s_objects (w_session w) !! h with
  | Some (SUser (Some i) _ _) =>
      match head (filter (λ u, user_id u = i) (db_users (w_db w))) with
      | Some u => mret u
      | None => raise (SQLAlchemyError "Could not refresh instance")
      end
  | _ => raise (SQLAlchemyError "Instance is not persistent within this Session")
  end.

(** [db.refresh(post)] *)
Definition db_refresh_post (h : nat) : M Post :=
  w ← get_world;
  match s_objects (w_session w) !! h with
  | Some (SPost (Some i) _ _) =>
      match head (filter (λ p, post_id p = i) (db_posts (w_db w))) with
      | Some p => mret p
      | None => raise (SQLAlchemyError "Could not refresh instance")
      end
  | _ => raise (SQLAlchemyError "Instance is not persistent within this Session")
  end.

(** [key in cache] *)
Definition cache_contains (k : string) : M bool :=
  env ← ask;
  w ← get_world;
  mret (ttl_contains (w_cache w) k (env_monotonic env)).

(** [cache[key]] *)
Definition cache_getitem (k : string) : M (list Post) :=
  env ← ask;
  w ← get_world;
  let '(r, c) := ttl_getitem (w_cache w) k (env_monotonic env) in
  set_cache c;;
  match r with
  | Some v => mret v
  | None => raise (KeyError k)
  end.

(** [cache[key] = value] *)
Definition cache_setitem (k : string) (v : list Post) : M () :=
  env ← ask;
  w ← get_world;
  set_cache (ttl_setitem (w_cache w) k v (env_monotonic env)).

(** [cache.pop(key, None)] *)
Definition cache_pop (k : string) : M () :=
  env ← ask;
  w ← get_world;
  set_cache (ttl_pop (w_cache w) k (env_monotonic env)).

(* ===================================================================== *)
(** ** app/auth.py *)
(* ===================================================================== *)

Definition create_access_token `{L : Libraries}
  (data : payload) (expires_delta : option timedelta) : M string :=
  let to_encode := data in
  now ← datetime_now;
  let expire :=
    if truthy_timedelta expires_delta then now + default 0 expires_delta
    else now + timedelta_days 1 in
  let to_encode := <["exp" := JNum expire]> to_encode in
  let encoded_jwt := jwt_encode to_encode in
  mret encoded_jwt.

Definition decode_jwt_token `{L : Libraries} (token : string) : M payload :=
  try_except
    (payload ← jwt_decode_call token;
     mret payload)
    [ (is_ExpiredSignatureError, λ _,
         raise (HTTPException HTTP_401_UNAUTHORIZED "Token has expired"
                              www_authenticate));
      (is_InvalidTokenError, λ _,
         raise (HTTPException HTTP_401_UNAUTHORIZED "Invalid token claims"
                              www_authenticate));
      (is_PyJWTError, λ _,
         raise (HTTPException HTTP_401_UNAUTHORIZED "Invalid credentials"
                              www_authenticate)) ].

Definition get_current_user `{L : Libraries} (authorization : string) : M User :=
  try_except
    ('(token_prefix, token) ← unpack2 (split_space authorization);
     when (bool_decide (token_prefix ≠ "Bearer"))
       (raise (HTTPException HTTP_401_UNAUTHORIZED "Invalid token type"
                             www_authenticate));;
     payload ← decode_jwt_token token;
     let email := payload !! "sub" in
     when (bool_decide (email = None))
       (raise (HTTPException HTTP_401_UNAUTHORIZED "Invalid credentials"
                             www_authenticate));;
     user ← db_users_first (λ u, bool_decide (Some (JStr (user_email u)) = email));
     match user with
     | None =>
         raise (HTTPException HTTP_401_UNAUTHORIZED "Invalid credentials"
                              www_authenticate)
     | Some user => mret user
     end)
    [ (is_ValueError, λ _,
         raise (HTTPException HTTP_400_BAD_REQUEST
                              "Authorization header is malformed"
                              www_authenticate));
      (is_Exception, λ e,
         raise (HTTPException HTTP_500_INTERNAL_SERVER_ERROR
                              ("An unexpected error occurred: " +:+ exn_str e)
                              www_authenticate)) ].

(* ===================================================================== *)
(** ** app/models.py: User.verify_password *)
(* ===================================================================== *)

Definition verify_password `{L : Libraries} (self : User) (password : string) : bool :=
  bcrypt_checkpw password (user_hashed_password self).

(* ===================================================================== *)
(** ** app/schemas.py *)
(* ===================================================================== *)

Record SignupRequest : Type := mkSignupRequest {
  signup_email : string;
  signup_password : string
}.

Record LoginRequest : Type := mkLoginRequest {
  login_email : string;
  login_password : string
}.

Record PostRequest : Type := mkPostRequest {
  request_text : string
}.

Record TokenResponse : Type := mkTokenResponse {
  access_token : string;
  token_type : string
}.

(* ===================================================================== *)
(** ** app/routers/users.py *)
(* ===================================================================== *)

Definition signup `{L : Libraries} (request : SignupRequest) : M TokenResponse :=
  existing_user ← db_users_first
    (λ u, bool_decide (user_email u = signup_email request));
  when (bool_decide (is_Some existing_user))
    (raise (HTTPException HTTP_400_BAD_REQUEST "Email already registered" []));;
  env ← ask;
  let hashed_password :=
    pwd_context_hash (env_salt env) (signup_password request) in
  user ← db_add (SUser None (signup_email request) hashed_password);
  user ← try_except
    (db_commit;;
     db_refresh_user user)
    [ (is_Exception, λ _,
         db_rollback;;
         raise (HTTPException HTTP_500_INTERNAL_SERVER_ERROR
                              "Error during signup process" [])) ];
  access_token ← create_access_token {["sub" := JStr (user_email user)]}
                                     (Some (timedelta_hours 1));
  mret {| access_token := access_token; token_type := "bearer" |}.

Definition login `{L : Libraries} (request : LoginRequest) : M TokenResponse :=
  user ← db_users_first
    (λ u, bool_decide (user_email u = login_email request));
  match user with
  | None =>
      raise (HTTPException HTTP_401_UNAUTHORIZED "Invalid credentials"
                           www_authenticate)
  | Some user =>
      if negb (verify_password user (login_password request)) then
        raise (HTTPException HTTP_401_UNAUTHORIZED "Invalid credentials"
                             www_authenticate)
      else
        access_token ← create_access_token {["sub" := JStr (user_email user)]}
                                           (Some (timedelta_hours 1));
        mret {| access_token := access_token; token_type := "bearer" |}
  end.

(* ===================================================================== *)
(** ** app/routers/posts.py *)
(* ===================================================================== *)

Definition create_post (request : PostRequest) (current_user : User) : M Post :=
  post ← db_add (SPost None (user_id current_user) (request_text request));
  db_commit;;
  post ← db_refresh_post post;
  cache_pop (user_email current_user);;
  mret post.

Definition read_posts (current_user : User) : M (list Post) :=
  hit ← cache_contains (user_email current_user);
  if (hit : bool) then cache_getitem (user_email current_user)
  else
    posts ← db_posts_all
      (λ p, bool_decide (post_user_id p = user_id current_user));
    cache_setitem (user_email current_user) posts;;
    mret posts.

Definition delete_post (id : Z) (current_user : User) : M () :=
  post ← db_posts_first
    (λ p, bool_decide (post_id p = id)
          && bool_decide (post_user_id p = user_id current_user));
  match post with
  | None => raise (HTTPException HTTP_404_NOT_FOUND "Post not found" [])
  | Some post =>
      db_delete post;;
      db_commit;;
      cache_pop (user_email current_user)
  end.

(* ===================================================================== *)
(** ** app/main.py: the application as a transition system *)
(* ===================================================================== *)

Inductive Request : Type :=
| POST_signup (request : SignupRequest)
| POST_login (request : LoginRequest)
| POST_posts (authorization : string) (request : PostRequest)
| GET_posts (authorization : string)
| DELETE_posts (authorization : string) (id : Z).

Inductive Body : Type :=
| BodyToken (t : TokenResponse)
| BodyPost (id : Z) (text : string)
| BodyPosts (ps : list (Z * string))
| BodyDetail (detail : string)
| BodyText (s : string)
| BodyEmpty.

Record Response : Type := mkResponse {
  resp_status : Z;
  resp_headers : list (string * string);
  resp_body : Body
}.

(** What survives between requests: the database, the module-level cache
    and the reading of the monotonic clock at the last request. *)
Record ServerState : Type := mkServerState {
  st_db : DB;
  st_cache : TTLCache;
  st_monotonic : Z
}.

(** What a single request brings from outside: the wall clock, the time
    elapsed on the monotonic clock since the previous request, whether the
    database accepts the commit, and the salt. *)
Record Input : Type := mkInput {
  in_utcnow : Z;
  in_elapsed : N;
  in_commit_ok : bool;
  in_salt : string
}.

Definition initial_state : ServerState :=
  {| st_db := empty_db; st_cache := []; st_monotonic := 0 |}.

(** [response_model=schemas.PostResponse] *)
Definition PostResponse (p : Post) : Z * string := (post_id p, post_text p).

Definition success_status (req : Request) : Z :=
  match req with
  | POST_signup _ => HTTP_201_CREATED
  | POST_login _ => HTTP_200_OK
  | POST_posts _ _ => HTTP_201_CREATED
  | GET_posts _ => HTTP_200_OK
  | DELETE_posts _ _ => HTTP_204_NO_CONTENT
  end.

(** The route table; [Depends(auth.get_current_user)] runs before the
    handler, in the same database session. *)
Definition route `{L : Libraries} (req : Request) : M Body :=
  match req with
  | POST_signup request =>
      t ← signup request;
      mret (BodyToken t)
  | POST_login request =>
      t ← login request;
      mret (BodyToken t)
  | POST_posts authorization request =>
      current_user ← get_current_user authorization;
      p ← create_post request current_user;
      mret (BodyPost (post_id p) (post_text p))
  | GET_posts authorization =>
      current_user ← get_current_user authorization;
      ps ← read_posts current_user;
      mret (BodyPosts (PostResponse <$> ps))
  | DELETE_posts authorization id =>
      current_user ← get_current_user authorization;
      delete_post id current_user;;
      mret BodyEmpty
  end.

(** The framework turns an [HTTPException] into its response and any other
    exception into a bare 500. *)
Definition respond (success : Z) (o : outcome Body) : Response :=
  match o with
  | Return b => mkResponse success [] b
  | Raise (HTTPException s d h) => mkResponse s h (BodyDetail d)
  | Raise _ =>
      mkResponse HTTP_500_INTERNAL_SERVER_ERROR [] (BodyText "Internal Server Error")
  end.

Definition request_env (inp : Input) (st : ServerState) : Env :=
  {| env_utcnow := in_utcnow inp;
     env_monotonic := st_monotonic st + Z.of_N (in_elapsed inp);
     env_commit_ok := in_commit_ok inp;
     env_salt := in_salt inp |}.

(** A request starts with a new session ([get_db]); when it ends the session
    is closed and whatever was not committed is lost. *)
Definition request_world (st : ServerState) : World :=
  {| w_db := st_db st; w_session := SessionLocal;
     w_cache := st_cache st; w_log := [] |}.

Definition handle `{L : Libraries} (req : Request) (inp : Input) (st : ServerState)
  : Response * ServerState :=
  let env := request_env inp st in
  let '(o, w) := route req env (request_world st) in
  (respond (success_status req) o,
   {| st_db := w_db w; st_cache := w_cache w;
      st_monotonic := env_monotonic env |}).

(** The state after a sequence of requests. *)
Fixpoint run `{L : Libraries} (trace : list (Request * Input)) (st : ServerState)
  : ServerState :=
  match trace with
  | [] => st
  | (req, inp) :: rest => run rest (handle req inp st).2
  end.

Definition reachable `{L : Libraries} (st : ServerState) : Prop :=
  ∃ trace, st = run trace initial_state.

(** The responses to a sequence of requests. *)
Fixpoint responses `{L : Libraries} (trace : list (Request * Input))
  (st : ServerState) : list Response :=
  match trace with
  | [] => []
  | (req, inp) :: rest =>
      let '(resp, st') := handle req inp st in
      resp :: responses rest st'
  end.

(* ===================================================================== *)
(** ** A reference instance of the library interface *)
(* ===================================================================== *)

(** Unsigned tokens [<sign><exp in unary>.<subject>] and a transparent
    password "hash".  The instance has no security value; it shows that the
    contracts [jwt_roundtrip], [checkpw_complete] and [checkpw_sound] can be
    met, and lets the handlers be run. *)
Module Reference.

Fixpoint unary (n : nat) : string :=
  match n with
  | O => "."
  | S n' => String "1" (unary n')
  end.

Fixpoint parse_unary (s : string) : option (nat * string) :=
  match s with
  | EmptyString => None
  | String c rest =>
      if Ascii.eqb c "." then Some (O, rest)
      else if Ascii.eqb c "1" then
        match parse_unary rest with
        | Some (n, r) => Some (S n, r)
        | None => None
        end
      else None
  end.

Definition encode (p : payload) : string :=
  match p !! "sub", p !! "exp" with
  | Some (JStr s), Some (JNum e) =>
      String (if (e <? 0)%Z then "-"%char else "+"%char)
             (unary (Z.abs_nat e) +:+ s)
  | _, _ => ""
  end.

Definition decode (token : string) (now : Z) : payload + jwt_error :=
  match token with
  | EmptyString => inr DecodeError
  | String sign rest =>
      match parse_unary rest with
      | None => inr DecodeError
      | Some (n, s) =>
          let e := if Ascii.eqb sign "-" then - Z.of_nat n else Z.of_nat n in
          if e <=? now then inr ExpiredSignatureError
          else inl (<["exp" := JNum e]> {["sub" := JStr s]})
      end
  end.

Definition hash (salt pw : string) : string := "$" +:+ pw.

Definition checkpw (pw hashed : string) : bool :=
  bool_decide (hashed = "$" +:+ pw).

Definition libs : Libraries :=
  {| jwt_encode := encode; jwt_decode := decode;
     pwd_context_hash := hash; bcrypt_checkpw := checkpw |}.

End Reference.

(* ===================================================================== *)
(** ** Vocabulary of the statements *)
(* ===================================================================== *)

Definition add_log (w : World) (evs : list event) : World :=
  {| w_db := w_db w; w_session := w_session w; w_cache := w_cache w;
     w_log := w_log w ++ evs |}.

(** The exception built by the last [except] clause of [get_current_user]. *)
Definition unexpected (e : exn) : exn :=
  HTTPException HTTP_500_INTERNAL_SERVER_ERROR
    ("An unexpected error occurred: " +:+ exn_str e) www_authenticate.

Definition unauthorized (detail : string) : exn :=
  HTTPException HTTP_401_UNAUTHORIZED detail www_authenticate.

Definition malformed_header_error : exn :=
  HTTPException HTTP_400_BAD_REQUEST "Authorization header is malformed"
                www_authenticate.

(** The detail chosen by the [except] clauses of [decode_jwt_token]. *)
Definition decode_detail (e : jwt_error) : string :=
  match e with
  | ExpiredSignatureError => "Token has expired"
  | InvalidKeyError => "Invalid credentials"
  | _ => "Invalid token claims"
  end.

(** The row selected by [filter(User.email == email).first()]. *)
Definition lookup_subject (email : json) (db : DB) : option User :=
  head (filter (λ u, bool_decide (Some (JStr (user_email u)) = Some email))
               (db_users db)).

(** A header value that is malformed in the sense of the specification:
    it does not split into exactly two parts, or its first part is not
    the scheme [Bearer]. *)
Definition malformed_header (authorization : string) : Prop :=
  match split_space authorization with
  | [token_prefix; _] => token_prefix ≠ "Bearer"
  | _ => True
  end.

Definition insert_user (db : DB) (email hashed : string) : DB :=
  {| db_users := db_users db ++ [mkUser (db_user_seq db) email hashed];
     db_posts := db_posts db;
     db_user_seq := db_user_seq db + 1;
     db_post_seq := db_post_seq db |}.

Definition insert_post (db : DB) (uid : Z) (text : string) : DB :=
  {| db_users := db_users db;
     db_posts := db_posts db ++ [mkPost (db_post_seq db) uid text];
     db_user_seq := db_user_seq db;
     db_post_seq := db_post_seq db + 1 |}.

Definition delete_post_row (db : DB) (id : Z) : DB :=
  {| db_users := db_users db;
     db_posts := filter (λ p, post_id p ≠ id) (db_posts db);
     db_user_seq := db_user_seq db;
     db_post_seq := db_post_seq db |}.

(** The rows of the posts table that belong to a user, in table order. *)
Definition user_posts (db : DB) (uid : Z) : list Post :=
  filter (λ p, post_user_id p = uid) (db_posts db).

Definition email_registered (db : DB) (email : string) : Prop :=
  ∃ u, u ∈ db_users db ∧ user_email u = email.

(** The state after a request that changed neither table nor cache. *)
Definition tick (inp : Input) (st : ServerState) : ServerState :=
  {| st_db := st_db st; st_cache := st_cache st;
     st_monotonic := st_monotonic st + Z.of_N (in_elapsed inp) |}.

(** The dependency [get_current_user] accepts the header and yields [u]. *)
Definition resolves `{L : Libraries} (authorization : string) (inp : Input)
  (st : ServerState) (u : User) : Prop :=
  (get_current_user authorization (request_env inp st) (request_world st)).1
  = Return u.

(** Primary keys come from the sequences and are unique, and so are
    e-mail addresses. *)
Record db_wf (db : DB) : Prop := mk_db_wf {
  wf_user_ids : ∀ u, u ∈ db_users db → user_id u < db_user_seq db;
  wf_post_ids : ∀ p, p ∈ db_posts db → post_id p < db_post_seq db;
  wf_user_ids_nodup : NoDup (user_id <$> db_users db);
  wf_post_ids_nodup : NoDup (post_id <$> db_posts db);
  wf_emails_nodup : NoDup (user_email <$> db_users db)
}.

(** A cache entry agrees with the posts table of the user it is keyed by. *)
Definition entry_fresh (db : DB) (l : Link) : Prop :=
  ∃ u, u ∈ db_users db ∧ user_email u = link_key l ∧
       link_value l = user_posts db (user_id u).

(** Every entry has either expired already or is fresh; keys are unique. *)
Record cache_inv (st : ServerState) : Prop := mk_cache_inv {
  inv_keys_nodup : NoDup (link_key <$> st_cache st);
  inv_entries : ∀ l, l ∈ st_cache st →
      link_expires l ≤ st_monotonic st ∨ entry_fresh (st_db st) l
}.

Definition state_inv (st : ServerState) : Prop :=
  db_wf (st_db st) ∧ cache_inv st.

Definition invalid_credentials_response : Response :=
  mkResponse HTTP_401_UNAUTHORIZED www_authenticate
             (BodyDetail "Invalid credentials").

Definition email_taken_response : Response :=
  mkResponse HTTP_400_BAD_REQUEST [] (BodyDetail "Email already registered").

Definition post_not_found_response : Response :=
  mkResponse HTTP_404_NOT_FOUND [] (BodyDetail "Post not found").

Definition posts_response (ps : list Post) : Response :=
  mkResponse HTTP_200_OK [] (BodyPosts (PostResponse <$> ps)).

(** The token that the signup and login handlers hand out at time [now]. *)
Definition issued_token `{L : Libraries} (email : string) (now : Z) : string :=
  jwt_encode (<["exp" := JNum (now + timedelta_hours 1)]> {["sub" := JStr email]}).

Definition token_response `{L : Libraries} (status : Z) (email : string) (now : Z)
  : Response :=
  mkResponse status []
    (BodyToken {| access_token := issued_token email now; token_type := "bearer" |}).

(** The row selected by [filter(User.email == email).first()] in the
    signup and login handlers. *)
Definition find_email (db : DB) (email : string) : option User :=
  head (filter (λ u, bool_decide (user_email u = email)) (db_users db)).

(** The row selected by the query of [delete_post]. *)
Definition find_owned (db : DB) (id uid : Z) : option Post :=
  head (filter (λ p, bool_decide (post_id p = id)
                     && bool_decide (post_user_id p = uid)) (db_posts db)).

(** The header of the requests that go through [get_current_user]. *)
Definition protected (req : Request) : option string :=
  match req with
  | POST_posts a _ | GET_posts a | DELETE_posts a _ => Some a
  | _ => None
  end.

(** What one request can do to the state. *)
Inductive effect (inp : Input) (st : ServerState) : ServerState → Prop :=
| effect_none :
    effect inp st (tick inp st)
| effect_signup email hashed :
    ¬ email_registered (st_db st) email →
    effect inp st
      {| st_db := insert_user (st_db st) email hashed;
         st_cache := st_cache st;
         st_monotonic := st_monotonic st + Z.of_N (in_elapsed inp) |}
| effect_create u text :
    u ∈ db_users (st_db st) →
    effect inp st
      {| st_db := insert_post (st_db st) (user_id u) text;
         st_cache := ttl_pop (st_cache st) (user_email u)
                       (st_monotonic st + Z.of_N (in_elapsed inp));
         st_monotonic := st_monotonic st + Z.of_N (in_elapsed inp) |}
| effect_read_hit u l :
    links_find (user_email u) (st_cache st) = Some l →
    effect inp st
      {| st_db := st_db st;
         st_cache := links_remove (user_email u) (st_cache st) ++ [l];
         st_monotonic := st_monotonic st + Z.of_N (in_elapsed inp) |}
| effect_read_miss u :
    u ∈ db_users (st_db st) →
    effect inp st
      {| st_db := st_db st;
         st_cache := ttl_setitem (st_cache st) (user_email u)
                       (user_posts (st_db st) (user_id u))
                       (st_monotonic st + Z.of_N (in_elapsed inp));
         st_monotonic := st_monotonic st + Z.of_N (in_elapsed inp) |}
| effect_delete u id p :
    u ∈ db_users (st_db st) →
    find_owned (st_db st) id (user_id u) = Some p →
    effect inp st
      {| st_db := delete_post_row (st_db st) id;
         st_cache := ttl_pop (st_cache st) (user_email u)
                       (st_monotonic st + Z.of_N (in_elapsed inp));
         st_monotonic := st_monotonic st + Z.of_N (in_elapsed inp) |}.

(** [s.count(c)]: the number of occurrences of a character. *)
Fixpoint count_char (c : ascii) (s : string) : nat :=
  match s with
  | EmptyString => 0
  | String a s' => (if Ascii.eqb a c then 1 else 0) + count_char c s'
  end.

Definition count_space (s : string) : nat := count_char " "%char s.

(* ===================================================================== *)
(** * Proofs *)
(* ===================================================================== *)

Create HintDb handler.
#[global] Hint Unfold raise try_except when ask get_world log
  set_session set_db set_cache unpack2 datetime_now : handler.

(** Runs the monadic plumbing of a handler. *)
Ltac run_M :=
  repeat (autounfold with handler; unfold mbind, M_bind, mret, M_ret; simpl).

(* ===================================================================== *)
(** ** Lists and strings *)
(* ===================================================================== *)

Lemma head_filter_Some {A} (P : A → Prop) `{∀ x, Decision (P x)} (l : list A) x :
  head (filter P l) = Some x → x ∈ l ∧ P x.
Proof.
  intros Hh. apply head_Some_elem_of in Hh. by apply list_elem_of_filter in Hh as [? ?].
Qed.

Lemma head_filter_None {A} (P : A → Prop) `{∀ x, Decision (P x)} (l : list A) :
  head (filter P l) = None ↔ ∀ x, x ∈ l → ¬ P x.
Proof.
  rewrite head_None. split.
  - intros Hnil x Hx HP.
    assert (x ∈ filter P l) as Hin by (apply list_elem_of_filter; done).
    rewrite Hnil in Hin. by apply not_elem_of_nil in Hin.
  - intros Hall. induction l as [|a l IH]; [done|].
    rewrite filter_cons. destruct (decide (P a)) as [HP|HP].
    + exfalso. apply (Hall a); [left | done].
    + apply IH. intros x Hx. apply Hall. by right.
Qed.

(** In a list without duplicate keys the first match of a key is the only
    one. *)
Lemma head_filter_key {A K} `{EqDecision K} (key : A → K) (l : list A) x :
  NoDup (key <$> l) → x ∈ l →
  head (filter (λ y, key y = key x) l) = Some x.
Proof.
  induction l as [|a l IH]; intros Hnd Hx; [by apply not_elem_of_nil in Hx|].
  rewrite fmap_cons in Hnd. apply NoDup_cons in Hnd as [Hna Hnd].
  rewrite filter_cons. destruct (decide (key a = key x)) as [Heq|Hne].
  - simpl. f_equal. apply elem_of_cons in Hx as [->|Hx]; [done|].
    exfalso. apply Hna. rewrite Heq. by apply list_elem_of_fmap_2.
  - apply elem_of_cons in Hx as [->|Hx]; [done|]. by apply IH.
Qed.

Lemma filter_all {A} (P : A → Prop) `{∀ x, Decision (P x)} (l : list A) :
  (∀ x, x ∈ l → P x) → filter P l = l.
Proof.
  induction l as [|a l IH]; intros Hall; [done|].
  rewrite filter_cons, decide_True by (apply Hall; left).
  f_equal. apply IH. intros x Hx. apply Hall. by right.
Qed.

Lemma filter_none {A} (P : A → Prop) `{∀ x, Decision (P x)} (l : list A) :
  (∀ x, x ∈ l → ¬ P x) → filter P l = [].
Proof.
  induction l as [|a l IH]; intros Hall; [done|].
  rewrite filter_cons, decide_False by (apply Hall; left).
  apply IH. intros x Hx. apply Hall. by right.
Qed.

(* ===================================================================== *)
(** ** app/auth.py *)
(* ===================================================================== *)

Section Auth.
Context `{L : Libraries}.

Lemma add_log_nil w : add_log w [] = w.
Proof. destruct w; unfold add_log; simpl. by rewrite app_nil_r. Qed.

(** *** Token issuance *)

Lemma create_access_token_run data expires_delta env w :
  create_access_token data expires_delta env w =
    (Return (jwt_encode
       (<["exp" := JNum (if truthy_timedelta expires_delta
                         then env_utcnow env + default 0 expires_delta
                         else env_utcnow env + timedelta_days 1)]> data)), w).
Proof. reflexivity. Qed.

Lemma create_access_token_ttl data T env w :
  T ≠ 0 →
  create_access_token data (Some T) env w =
    (Return (jwt_encode (<["exp" := JNum (env_utcnow env + T)]> data)), w).
Proof.
  intros HT. rewrite create_access_token_run. simpl.
  by destruct (Z.eqb_spec T 0).
Qed.

Lemma create_access_token_default data env w :
  create_access_token data None env w =
    (Return (jwt_encode (<["exp" := JNum (env_utcnow env + 86400)]> data)), w).
Proof. reflexivity. Qed.

(** *** Token verification *)

Lemma decode_jwt_token_run token env w :
  decode_jwt_token token env w =
    match jwt_decode token (env_utcnow env) with
    | inl p => (Return p, add_log w [EvJwtDecode token])
    | inr e => (Raise (unauthorized (decode_detail e)),
                add_log w [EvJwtDecode token])
    end.
Proof.
  unfold decode_jwt_token, jwt_decode_call. run_M.
  destruct (jwt_decode token (env_utcnow env)) as [p|e]; simpl; [done|].
  by destruct e.
Qed.

(** A token with a non-zero ttl is accepted strictly before its expiry. *)
Lemma token_valid_before_expiry sub T env w env' w' :
  jwt_roundtrip L → T ≠ 0 → env_utcnow env' < env_utcnow env + T →
  ∃ token,
    create_access_token {["sub" := JStr sub]} (Some T) env w = (Return token, w) ∧
    decode_jwt_token token env' w' =
      (Return (<["exp" := JNum (env_utcnow env + T)]> {["sub" := JStr sub]}),
       add_log w' [EvJwtDecode token]).
Proof.
  intros Hrt HT Hlt. eexists. split; [by apply create_access_token_ttl|].
  rewrite decode_jwt_token_run.
  destruct (Hrt sub (env_utcnow env + T) (env_utcnow env')) as [Hok _].
  by rewrite Hok.
Qed.

(** ... and rejected as expired strictly after it. *)
Lemma token_expired_after_expiry sub T env w env' w' :
  jwt_roundtrip L → T ≠ 0 → env_utcnow env + T < env_utcnow env' →
  ∃ token,
    create_access_token {["sub" := JStr sub]} (Some T) env w = (Return token, w) ∧
    decode_jwt_token token env' w' =
      (Raise (unauthorized "Token has expired"), add_log w' [EvJwtDecode token]).
Proof.
  intros Hrt HT Hlt. eexists. split; [by apply create_access_token_ttl|].
  rewrite decode_jwt_token_run.
  destruct (Hrt sub (env_utcnow env + T) (env_utcnow env')) as [_ Hex].
  by rewrite Hex.
Qed.

(** A token whose signature or claims the library rejects is answered
    with 401 "Invalid token claims". *)
Lemma token_invalid token e env w :
  jwt_decode token (env_utcnow env) = inr e →
  is_InvalidTokenError (PyJWTError e) = true → e ≠ ExpiredSignatureError →
  decode_jwt_token token env w =
    (Raise (unauthorized "Invalid token claims"), add_log w [EvJwtDecode token]).
Proof.
  intros He Hi Hne. rewrite decode_jwt_token_run, He. by destruct e.
Qed.

(** *** Identity resolution *)

Lemma get_current_user_malformed authorization env w :
  length (split_space authorization) ≠ 2%nat →
  get_current_user authorization env w = (Raise malformed_header_error, w).
Proof.
  intros Hlen. unfold get_current_user.
  destruct (split_space authorization) as [|a [|b [|c r]]]; try done.
Qed.

Lemma get_current_user_wrong_prefix authorization token_prefix token env w :
  split_space authorization = [token_prefix; token] →
  token_prefix ≠ "Bearer" →
  get_current_user authorization env w =
    (Raise (unexpected (unauthorized "Invalid token type")), w).
Proof.
  intros Hs Hp. unfold get_current_user. rewrite Hs.
  run_M. rewrite bool_decide_true by done. simpl. done.
Qed.

Lemma get_current_user_bearer authorization token env w :
  split_space authorization = ["Bearer"; token] →
  get_current_user authorization env w =
    match jwt_decode token (env_utcnow env) with
    | inr e =>
        (Raise (unexpected (unauthorized (decode_detail e))),
         add_log w [EvJwtDecode token])
    | inl p =>
        match p !! "sub" with
        | None =>
            (Raise (unexpected (unauthorized "Invalid credentials")),
             add_log w [EvJwtDecode token])
        | Some email =>
            match lookup_subject email (w_db w) with
            | None =>
                (Raise (unexpected (unauthorized "Invalid credentials")),
                 add_log w [EvJwtDecode token; EvQueryUser])
            | Some user =>
                (Return user, add_log w [EvJwtDecode token; EvQueryUser])
            end
        end
    end.
Proof.
  intros Hs. unfold get_current_user. rewrite Hs.
  unfold try_except at 1. unfold mbind, M_bind at 1. simpl.
  unfold mbind, M_bind at 1. unfold when at 1. simpl.
  unfold mbind, M_bind at 1. rewrite decode_jwt_token_run.
  destruct (jwt_decode token (env_utcnow env)) as [p|e]; simpl; [|by destruct e].
  unfold lookup_subject.
  destruct (p !! "sub") as [email|] eqn:Hsub; run_M; [|done].
  rewrite <- app_assoc. simpl.
  destruct (head _); done.
Qed.

(** The three shapes of a header value. *)
Lemma split_space_cases authorization :
  length (split_space authorization) ≠ 2%nat ∨
  (∃ p t, split_space authorization = [p; t] ∧ p ≠ "Bearer") ∨
  (∃ t, split_space authorization = ["Bearer"; t]).
Proof.
  destruct (split_space authorization) as [|a [|b [|c r]]]; simpl; auto.
  right. destruct (decide (a = "Bearer")) as [->|Hne]; eauto.
Qed.

(** Identity resolution only reads: it leaves tables, session and cache
    alone, and a user it returns is a row of the users table. *)
Lemma get_current_user_frame authorization env w :
  ∃ evs, (get_current_user authorization env w).2 = add_log w evs.
Proof.
  destruct (split_space_cases authorization) as [Hl|[(p & t & Hs & Hp)|(t & Hs)]].
  - exists []. by rewrite get_current_user_malformed, add_log_nil.
  - exists []. by rewrite (get_current_user_wrong_prefix _ _ _ _ _ Hs Hp), add_log_nil.
  - rewrite (get_current_user_bearer _ _ _ _ Hs).
    destruct (jwt_decode _ _) as [p|e]; [|by eexists].
    destruct (p !! "sub") as [email|]; [|by eexists].
    destruct (lookup_subject _ _); by eexists.
Qed.

Lemma get_current_user_Return authorization env w u :
  (get_current_user authorization env w).1 = Return u →
  u ∈ db_users (w_db w) ∧
  ∃ evs, get_current_user authorization env w = (Return u, add_log w evs).
Proof.
  destruct (split_space_cases authorization) as [Hl|[(p & t & Hs & Hp)|(t & Hs)]].
  - by rewrite get_current_user_malformed.
  - by rewrite (get_current_user_wrong_prefix _ _ _ _ _ Hs Hp).
  - rewrite (get_current_user_bearer _ _ _ _ Hs).
    destruct (jwt_decode _ _) as [p|e]; [|done].
    destruct (p !! "sub") as [email|]; [|done].
    destruct (lookup_subject _ _) as [u'|] eqn:Hl; [|done].
    simpl. intros [= ->]. split; [|by eexists].
    unfold lookup_subject in Hl. by apply head_filter_Some in Hl as [? _].
Qed.

Lemma get_current_user_Raise authorization env w e :
  (get_current_user authorization env w).1 = Raise e →
  ∃ evs, get_current_user authorization env w = (Raise e, add_log w evs).
Proof.
  intros He. destruct (get_current_user_frame authorization env w) as [evs Hw].
  exists evs. destruct (get_current_user authorization env w) as [o w'].
  simpl in *. by subst.
Qed.

(** Whatever goes wrong once the header has two parts comes out of the
    last [except] clause. *)
Lemma get_current_user_two_parts authorization token_prefix token env w e w' :
  split_space authorization = [token_prefix; token] →
  get_current_user authorization env w = (Raise e, w') →
  ∃ detail, e = unexpected (unauthorized detail).
Proof.
  intros Hs. destruct (decide (token_prefix = "Bearer")) as [->|Hp].
  - rewrite (get_current_user_bearer _ _ _ _ Hs).
    destruct (jwt_decode _ _) as [p|j]; [|intros [= <- _]; by eexists].
    destruct (p !! "sub") as [email|]; [|intros [= <- _]; by eexists].
    destruct (lookup_subject _ _); [done|]. intros [= <- _]; by eexists.
  - rewrite (get_current_user_wrong_prefix _ _ _ _ _ Hs Hp).
    intros [= <- _]; by eexists.
Qed.

End Auth.

(* ===================================================================== *)
(** ** The session and the handlers of app/routers *)
(* ===================================================================== *)

Lemma filter_notin_nil (l : list Post) : filter (λ p, post_id p ∉ []) l = l.
Proof. apply filter_all. intros x _. apply not_elem_of_nil. Qed.

Lemma delete_rows_nil db : delete_rows [] db = db.
Proof.
  destruct db as [us ps a b]. unfold delete_rows; simpl. f_equal.
  apply filter_all. intros x _. apply not_elem_of_nil.
Qed.

Lemma delete_rows_one db id : delete_rows [id] db = delete_post_row db id.
Proof.
  unfold delete_rows, delete_post_row. f_equal.
  apply list_filter_iff. intros p. rewrite list_elem_of_singleton. done.
Qed.

Lemma refresh_new_user db e h :
  db_wf db →
  head (filter (λ u, user_id u = db_user_seq db)
               (db_users db ++ [mkUser (db_user_seq db) e h]))
  = Some (mkUser (db_user_seq db) e h).
Proof.
  intros Hwf. rewrite filter_app, filter_none.
  - simpl. rewrite filter_cons, decide_True by done. done.
  - intros u Hu Heq. apply (wf_user_ids _ Hwf) in Hu. lia.
Qed.

Lemma refresh_new_post db uid t :
  db_wf db →
  head (filter (λ p, post_id p = db_post_seq db)
               (db_posts db ++ [mkPost (db_post_seq db) uid t]))
  = Some (mkPost (db_post_seq db) uid t).
Proof.
  intros Hwf. rewrite filter_app, filter_none.
  - simpl. rewrite filter_cons, decide_True by done. done.
  - intros u Hu Heq. apply (wf_post_ids _ Hwf) in Hu. lia.
Qed.

Section Users.
Context `{L : Libraries}.

Lemma signup_taken request env w u0 :
  find_email (w_db w) (signup_email request) = Some u0 →
  signup request env w =
    (Raise (HTTPException HTTP_400_BAD_REQUEST "Email already registered" []),
     add_log w [EvQueryUser]).
Proof.
  unfold find_email. intros Hf. unfold signup, db_users_first. run_M.
  rewrite Hf. simpl. done.
Qed.

Lemma signup_commit_failed request env w :
  w_session w = SessionLocal →
  find_email (w_db w) (signup_email request) = None →
  env_commit_ok env = false →
  signup request env w =
    (Raise (HTTPException HTTP_500_INTERNAL_SERVER_ERROR
                          "Error during signup process" []),
     add_log w [EvQueryUser]).
Proof.
  unfold find_email. intros Hs Hf Hc.
  unfold signup, db_users_first, db_add, db_commit, db_rollback. run_M.
  rewrite Hf, Hs, Hc. simpl. unfold add_log. by rewrite Hs.
Qed.

Lemma signup_created request env w :
  w_session w = SessionLocal →
  db_wf (w_db w) →
  find_email (w_db w) (signup_email request) = None →
  env_commit_ok env = true →
  signup request env w =
    (Return {| access_token := issued_token (signup_email request) (env_utcnow env);
               token_type := "bearer" |},
     {| w_db := insert_user (w_db w) (signup_email request)
                  (pwd_context_hash (env_salt env) (signup_password request));
        w_session := {| s_objects :=
                          [SUser (Some (db_user_seq (w_db w))) (signup_email request)
                             (pwd_context_hash (env_salt env) (signup_password request))];
                        s_deleted := [] |};
        w_cache := w_cache w;
        w_log := w_log w ++ [EvQueryUser] |}).
Proof.
  unfold find_email. intros Hs Hwf Hf Hc.
  unfold signup, db_users_first, db_add, db_commit, db_refresh_user. run_M.
  rewrite Hf, Hs, Hc. simpl.
  rewrite refresh_new_user by done. simpl.
  unfold create_access_token. run_M.
  f_equal. f_equal. apply delete_rows_nil.
Qed.

Lemma login_unknown request env w :
  find_email (w_db w) (login_email request) = None →
  login request env w =
    (Raise (unauthorized "Invalid credentials"), add_log w [EvQueryUser]).
Proof.
  unfold find_email. intros Hf. unfold login, db_users_first. run_M.
  by rewrite Hf.
Qed.

Lemma login_wrong_password request env w u :
  find_email (w_db w) (login_email request) = Some u →
  verify_password u (login_password request) = false →
  login request env w =
    (Raise (unauthorized "Invalid credentials"), add_log w [EvQueryUser]).
Proof.
  unfold find_email. intros Hf Hv. unfold login, db_users_first. run_M.
  by rewrite Hf, Hv.
Qed.

Lemma login_ok request env w u :
  find_email (w_db w) (login_email request) = Some u →
  verify_password u (login_password request) = true →
  login request env w =
    (Return {| access_token := issued_token (user_email u) (env_utcnow env);
               token_type := "bearer" |},
     add_log w [EvQueryUser]).
Proof.
  unfold find_email. intros Hf Hv. unfold login, db_users_first. run_M.
  by rewrite Hf, Hv.
Qed.
End Users.

Section Posts.

Lemma create_post_commit_failed request u env w :
  env_commit_ok env = false →
  ∃ w', create_post request u env w = (Raise (SQLAlchemyError "commit failed"), w') ∧
        w_db w' = w_db w ∧ w_cache w' = w_cache w.
Proof.
  intros Hc. unfold create_post, db_add, db_commit. run_M. rewrite Hc.
  by eexists.
Qed.

Lemma create_post_committed request u env w :
  w_session w = SessionLocal →
  env_commit_ok env = true →
  ∃ p s, create_post request u env w =
    (Return p,
     {| w_db := insert_post (w_db w) (user_id u) (request_text request);
        w_session := s;
        w_cache := ttl_pop (w_cache w) (user_email u) (env_monotonic env);
        w_log := w_log w |}) ∧
    (db_wf (w_db w) →
     p = mkPost (db_post_seq (w_db w)) (user_id u) (request_text request)).
Proof.
  intros Hs Hc.
  unfold create_post, db_add, db_commit, db_refresh_post, cache_pop. run_M.
  rewrite Hs, Hc. simpl. rewrite ?delete_rows_nil, ?filter_notin_nil.
  destruct (head (filter _ _)) as [p|] eqn:Hh.
  - simpl. eexists _, _. split; [done|].
    intros Hwf. rewrite refresh_new_post in Hh by done. congruence.
  - exfalso. apply head_None in Hh.
    rewrite filter_app, filter_cons, decide_True in Hh by done.
    by destruct (filter _ (db_posts _)).
Qed.

Lemma read_posts_hit u env w l :
  links_find (user_email u) (w_cache w) = Some l →
  env_monotonic env < link_expires l →
  read_posts u env w =
    (Return (link_value l),
     {| w_db := w_db w; w_session := w_session w;
        w_cache := links_remove (user_email u) (w_cache w) ++ [l];
        w_log := w_log w |}).
Proof.
  intros Hf Hlt. unfold read_posts, cache_contains, cache_getitem. run_M.
  unfold ttl_contains, ttl_getitem.
  repeat (rewrite ?Hf, ?bool_decide_true by done; simpl). done.
Qed.

Lemma read_posts_miss u env w :
  ttl_contains (w_cache w) (user_email u) (env_monotonic env) = false →
  read_posts u env w =
    (Return (user_posts (w_db w) (user_id u)),
     {| w_db := w_db w; w_session := w_session w;
        w_cache := ttl_setitem (w_cache w) (user_email u)
                     (user_posts (w_db w) (user_id u)) (env_monotonic env);
        w_log := w_log w |}).
Proof.
  intros Hc. unfold read_posts, cache_contains, db_posts_all, cache_setitem. run_M.
  rewrite Hc. simpl.
  assert (filter (λ p, bool_decide (post_user_id p = user_id u)) (db_posts (w_db w))
          = user_posts (w_db w) (user_id u)) as ->; [|done].
  apply list_filter_iff. intros p. by rewrite bool_decide_spec.
Qed.

Lemma delete_post_not_found id u env w :
  find_owned (w_db w) id (user_id u) = None →
  delete_post id u env w =
    (Raise (HTTPException HTTP_404_NOT_FOUND "Post not found" []), w).
Proof.
  unfold find_owned. intros Hf. unfold delete_post, db_posts_first. run_M.
  rewrite Hf. by destruct w.
Qed.

Lemma delete_post_commit_failed id u env w p :
  find_owned (w_db w) id (user_id u) = Some p →
  env_commit_ok env = false →
  ∃ w', delete_post id u env w = (Raise (SQLAlchemyError "commit failed"), w') ∧
        w_db w' = w_db w ∧ w_cache w' = w_cache w.
Proof.
  unfold find_owned. intros Hf Hc.
  unfold delete_post, db_posts_first, db_delete, db_commit. run_M.
  rewrite Hf. simpl. rewrite Hc. by eexists.
Qed.

Lemma delete_post_committed id u env w p :
  w_session w = SessionLocal →
  find_owned (w_db w) id (user_id u) = Some p →
  env_commit_ok env = true →
  delete_post id u env w =
    (Return (),
     {| w_db := delete_post_row (w_db w) id;
        w_session := SessionLocal;
        w_cache := ttl_pop (w_cache w) (user_email u) (env_monotonic env);
        w_log := w_log w |}).
Proof.
  unfold find_owned. intros Hs Hf Hc.
  assert (post_id p = id) as Hid.
  { apply head_filter_Some in Hf as [_ HP].
    apply andb_True in HP as [HP _]. by apply bool_decide_spec in HP. }
  unfold delete_post, db_posts_first, db_delete, db_commit, cache_pop. run_M.
  rewrite Hf. simpl. rewrite Hc, Hs. simpl.
  rewrite delete_rows_one, Hid. done.
Qed.
End Posts.

(* ===================================================================== *)
(** ** The tables *)
(* ===================================================================== *)

Lemma filter_ext_in {A} (P Q : A → Prop) `{∀ x, Decision (P x)}
  `{∀ x, Decision (Q x)} (l : list A) :
  (∀ x, x ∈ l → P x ↔ Q x) → filter P l = filter Q l.
Proof.
  induction l as [|a l IH]; intros Hext; [done|].
  rewrite !filter_cons.
  assert (filter P l = filter Q l) as ->.
  { apply IH. intros x Hx. apply Hext. by right. }
  destruct (decide (P a)) as [HP|HP], (decide (Q a)) as [HQ|HQ]; try done.
  - exfalso. apply HQ, Hext; [left | done].
  - exfalso. apply HP, Hext; [left | done].
Qed.

Lemma NoDup_fmap_filter {A K} (key : A → K) (P : A → Prop)
  `{∀ x, Decision (P x)} (l : list A) :
  NoDup (key <$> l) → NoDup (key <$> filter P l).
Proof.
  intros Hnd. eapply sublist_NoDup; [exact Hnd|].
  apply fmap_sublist, sublist_filter.
Qed.

(** Rows with the same key are the same row. *)
Lemma NoDup_fmap_key {A K} (key : A → K) (l : list A) x y :
  NoDup (key <$> l) → x ∈ l → y ∈ l → key x = key y → x = y.
Proof.
  induction l as [|a l IH]; intros Hnd Hx Hy Hk; [by apply not_elem_of_nil in Hx|].
  rewrite fmap_cons in Hnd. apply NoDup_cons in Hnd as [Hna Hnd].
  apply elem_of_cons in Hx as [->|Hx], Hy as [->|Hy]; try done.
  - exfalso. apply Hna. rewrite Hk. by apply list_elem_of_fmap_2.
  - exfalso. apply Hna. rewrite <- Hk. by apply list_elem_of_fmap_2.
  - by apply IH.
Qed.

Lemma empty_db_wf : db_wf empty_db.
Proof.
  split; simpl; try apply NoDup_nil_2; intros x Hx; by apply not_elem_of_nil in Hx.
Qed.

Lemma find_email_None db email :
  find_email db email = None ↔ ¬ email_registered db email.
Proof.
  unfold find_email, email_registered. rewrite head_filter_None. split.
  - intros Hall (u & Hu & He). apply (Hall u Hu). by apply bool_decide_spec.
  - intros Hno u Hu He. apply bool_decide_spec in He. apply Hno. eauto.
Qed.

Lemma find_email_Some db u :
  db_wf db → u ∈ db_users db → find_email db (user_email u) = Some u.
Proof.
  intros Hwf Hu. unfold find_email.
  rewrite <- (head_filter_key user_email (db_users db) u (wf_emails_nodup _ Hwf) Hu).
  f_equal. apply list_filter_iff. intros x. by rewrite bool_decide_spec.
Qed.

Lemma find_email_elem db email u :
  find_email db email = Some u → u ∈ db_users db ∧ user_email u = email.
Proof.
  unfold find_email. intros Hf. apply head_filter_Some in Hf as [Hu He].
  by apply bool_decide_spec in He.
Qed.

Lemma insert_user_wf db email hashed :
  db_wf db → ¬ email_registered db email → db_wf (insert_user db email hashed).
Proof.
  intros [Hu Hp Hnu Hnp Hne] Hfresh. split; simpl; try done.
  - intros u Hin. apply elem_of_app in Hin as [Hin|Hin].
    + apply Hu in Hin. lia.
    + apply list_elem_of_singleton in Hin as ->. simpl. lia.
  - rewrite fmap_app. apply NoDup_app. split; [done|]. split.
    + intros i Hi Hi'. simpl in Hi'. apply list_elem_of_singleton in Hi' as ->.
      apply list_elem_of_fmap in Hi as (u & Heq & Hin). apply Hu in Hin. lia.
    + simpl. apply NoDup_singleton.
  - rewrite fmap_app. apply NoDup_app. split; [done|]. split.
    + intros e He He'. simpl in He'. apply list_elem_of_singleton in He' as ->.
      apply list_elem_of_fmap in He as (u & Heq & Hin). apply Hfresh.
      exists u. by split.
    + simpl. apply NoDup_singleton.
Qed.

Lemma insert_post_wf db uid text : db_wf db → db_wf (insert_post db uid text).
Proof.
  intros [Hu Hp Hnu Hnp Hne]. split; simpl; try done.
  - intros p Hin. apply elem_of_app in Hin as [Hin|Hin].
    + apply Hp in Hin. lia.
    + apply list_elem_of_singleton in Hin as ->. simpl. lia.
  - rewrite fmap_app. apply NoDup_app. split; [done|]. split.
    + intros i Hi Hi'. simpl in Hi'. apply list_elem_of_singleton in Hi' as ->.
      apply list_elem_of_fmap in Hi as (p & Heq & Hin). apply Hp in Hin. lia.
    + simpl. apply NoDup_singleton.
Qed.

Lemma delete_post_row_wf db id : db_wf db → db_wf (delete_post_row db id).
Proof.
  intros [Hu Hp Hnu Hnp Hne]. split; simpl; try done.
  - intros p Hin. apply list_elem_of_filter in Hin as [_ Hin]. by apply Hp.
  - by apply NoDup_fmap_filter.
Qed.

(** Inserting a post changes the posts of its owner only. *)
Lemma user_posts_insert_post db uid text uid' :
  user_posts (insert_post db uid text) uid' =
    user_posts db uid' ++
    (if decide (uid = uid') then [mkPost (db_post_seq db) uid text] else []).
Proof.
  unfold user_posts, insert_post. simpl. rewrite filter_app. f_equal.
Qed.

Lemma user_posts_insert_user db email hashed uid :
  user_posts (insert_user db email hashed) uid = user_posts db uid.
Proof. reflexivity. Qed.

Lemma find_owned_Some db id uid p :
  find_owned db id uid = Some p →
  p ∈ db_posts db ∧ post_id p = id ∧ post_user_id p = uid.
Proof.
  unfold find_owned. intros Hf. apply head_filter_Some in Hf as [Hin HP].
  apply andb_True in HP as [H1 H2].
  by apply bool_decide_spec in H1; apply bool_decide_spec in H2.
Qed.

Lemma find_owned_None db id uid :
  find_owned db id uid = None ↔
  ∀ p, p ∈ db_posts db → post_id p = id → post_user_id p ≠ uid.
Proof.
  unfold find_owned. rewrite head_filter_None. split.
  - intros Hall p Hin Hid Hu. apply (Hall p Hin).
    apply andb_True. split; by apply bool_decide_spec.
  - intros Hall p Hin HP. apply andb_True in HP as [H1 H2].
    apply bool_decide_spec in H1. apply bool_decide_spec in H2.
    by apply (Hall p Hin).
Qed.

(** Deleting a post of one user leaves the posts of every other user. *)
Lemma user_posts_delete_other db id p uid' :
  db_wf db → p ∈ db_posts db → post_id p = id → post_user_id p ≠ uid' →
  user_posts (delete_post_row db id) uid' = user_posts db uid'.
Proof.
  intros Hwf Hin Hid Hne. unfold user_posts, delete_post_row. simpl.
  rewrite list_filter_filter. apply filter_ext_in. intros q Hq. split; [tauto|].
  intros Hu. split; [done|]. intros Hqid. apply Hne. rewrite <- Hu. f_equal.
  apply (NoDup_fmap_key post_id (db_posts db)); [apply Hwf|done..|congruence].
Qed.


(* ===================================================================== *)
(** ** One request *)
(* ===================================================================== *)

Section Handle.
Context `{L : Libraries}.

Lemma handle_signup_taken st inp request :
  email_registered (st_db st) (signup_email request) →
  handle (POST_signup request) inp st = (email_taken_response, tick inp st).
Proof.
  intros Hreg.
  destruct (find_email (st_db st) (signup_email request)) as [u0|] eqn:Hf;
    [|by apply find_email_None in Hf].
  unfold handle, route. unfold mbind, M_bind.
  by rewrite (signup_taken _ _ _ u0).
Qed.

Lemma handle_signup_failed st inp request :
  ¬ email_registered (st_db st) (signup_email request) →
  in_commit_ok inp = false →
  handle (POST_signup request) inp st =
    (mkResponse HTTP_500_INTERNAL_SERVER_ERROR []
                (BodyDetail "Error during signup process"),
     tick inp st).
Proof.
  intros Hreg Hc. apply find_email_None in Hreg.
  unfold handle, route. unfold mbind, M_bind.
  by rewrite signup_commit_failed.
Qed.

Lemma handle_signup_created st inp request :
  db_wf (st_db st) →
  ¬ email_registered (st_db st) (signup_email request) →
  in_commit_ok inp = true →
  handle (POST_signup request) inp st =
    (token_response HTTP_201_CREATED (signup_email request) (in_utcnow inp),
     {| st_db := insert_user (st_db st) (signup_email request)
                   (pwd_context_hash (in_salt inp) (signup_password request));
        st_cache := st_cache st;
        st_monotonic := st_monotonic st + Z.of_N (in_elapsed inp) |}).
Proof.
  intros Hwf Hreg Hc. apply find_email_None in Hreg.
  unfold handle, route. unfold mbind, M_bind.
  by rewrite signup_created.
Qed.

Lemma handle_login_unknown st inp request :
  ¬ email_registered (st_db st) (login_email request) →
  handle (POST_login request) inp st = (invalid_credentials_response, tick inp st).
Proof.
  intros Hreg. apply find_email_None in Hreg.
  unfold handle, route. unfold mbind, M_bind.
  by rewrite login_unknown.
Qed.

Lemma handle_login_wrong_password st inp request u :
  find_email (st_db st) (login_email request) = Some u →
  verify_password u (login_password request) = false →
  handle (POST_login request) inp st = (invalid_credentials_response, tick inp st).
Proof.
  intros Hf Hv. unfold handle, route. unfold mbind, M_bind.
  by rewrite (login_wrong_password _ _ _ u).
Qed.

Lemma handle_login_ok st inp request u :
  find_email (st_db st) (login_email request) = Some u →
  verify_password u (login_password request) = true →
  handle (POST_login request) inp st =
    (token_response HTTP_200_OK (user_email u) (in_utcnow inp), tick inp st).
Proof.
  intros Hf Hv. unfold handle, route. unfold mbind, M_bind.
  by rewrite (login_ok _ _ _ u).
Qed.

Lemma handle_rejected req authorization inp st e :
  protected req = Some authorization →
  (get_current_user authorization (request_env inp st) (request_world st)).1
    = Raise e →
  handle req inp st = (respond (success_status req) (Raise e), tick inp st).
Proof.
  intros Hp He. apply get_current_user_Raise in He as [evs He].
  destruct req; simplify_eq/=; unfold handle, route, mbind, M_bind;
    by rewrite He.
Qed.

Lemma handle_create_failed st inp authorization request u :
  resolves authorization inp st u →
  in_commit_ok inp = false →
  handle (POST_posts authorization request) inp st =
    (mkResponse HTTP_500_INTERNAL_SERVER_ERROR [] (BodyText "Internal Server Error"),
     tick inp st).
Proof.
  intros Hr Hc. apply get_current_user_Return in Hr as [_ [evs Hr]].
  unfold handle, route, mbind, M_bind. rewrite Hr.
  destruct (create_post_commit_failed request u (request_env inp st)
              (add_log (request_world st) evs) Hc) as (w' & -> & Hdb & Hca).
  simpl. unfold tick. by rewrite Hdb, Hca.
Qed.

Lemma handle_create_committed st inp authorization request u :
  resolves authorization inp st u →
  in_commit_ok inp = true →
  ∃ p,
    handle (POST_posts authorization request) inp st =
      (mkResponse HTTP_201_CREATED [] (BodyPost (post_id p) (post_text p)),
       {| st_db := insert_post (st_db st) (user_id u) (request_text request);
          st_cache := ttl_pop (st_cache st) (user_email u)
                        (st_monotonic st + Z.of_N (in_elapsed inp));
          st_monotonic := st_monotonic st + Z.of_N (in_elapsed inp) |}) ∧
    (db_wf (st_db st) →
     p = mkPost (db_post_seq (st_db st)) (user_id u) (request_text request)).
Proof.
  intros Hr Hc. apply get_current_user_Return in Hr as [_ [evs Hr]].
  destruct (create_post_committed request u (request_env inp st)
              (add_log (request_world st) evs) eq_refl Hc) as (p & s & Hrun & Hp).
  exists p. split; [|done].
  unfold handle, route, mbind, M_bind. rewrite Hr, Hrun. done.
Qed.

Lemma handle_read_hit st inp authorization u l :
  resolves authorization inp st u →
  links_find (user_email u) (st_cache st) = Some l →
  st_monotonic st + Z.of_N (in_elapsed inp) < link_expires l →
  handle (GET_posts authorization) inp st =
    (posts_response (link_value l),
     {| st_db := st_db st;
        st_cache := links_remove (user_email u) (st_cache st) ++ [l];
        st_monotonic := st_monotonic st + Z.of_N (in_elapsed inp) |}).
Proof.
  intros Hr Hf Hlt. apply get_current_user_Return in Hr as [_ [evs Hr]].
  unfold handle, route, mbind, M_bind. rewrite Hr.
  by rewrite (read_posts_hit u _ _ l).
Qed.

Lemma handle_read_miss st inp authorization u :
  resolves authorization inp st u →
  ttl_contains (st_cache st) (user_email u)
               (st_monotonic st + Z.of_N (in_elapsed inp)) = false →
  handle (GET_posts authorization) inp st =
    (posts_response (user_posts (st_db st) (user_id u)),
     {| st_db := st_db st;
        st_cache := ttl_setitem (st_cache st) (user_email u)
                      (user_posts (st_db st) (user_id u))
                      (st_monotonic st + Z.of_N (in_elapsed inp));
        st_monotonic := st_monotonic st + Z.of_N (in_elapsed inp) |}).
Proof.
  intros Hr Hm. apply get_current_user_Return in Hr as [_ [evs Hr]].
  unfold handle, route, mbind, M_bind. rewrite Hr.
  by rewrite read_posts_miss.
Qed.

Lemma handle_delete_not_found st inp authorization id u :
  resolves authorization inp st u →
  find_owned (st_db st) id (user_id u) = None →
  handle (DELETE_posts authorization id) inp st =
    (post_not_found_response, tick inp st).
Proof.
  intros Hr Hf. apply get_current_user_Return in Hr as [_ [evs Hr]].
  unfold handle, route, mbind, M_bind. rewrite Hr.
  by rewrite delete_post_not_found.
Qed.

Lemma handle_delete_failed st inp authorization id u p :
  resolves authorization inp st u →
  find_owned (st_db st) id (user_id u) = Some p →
  in_commit_ok inp = false →
  handle (DELETE_posts authorization id) inp st =
    (mkResponse HTTP_500_INTERNAL_SERVER_ERROR [] (BodyText "Internal Server Error"),
     tick inp st).
Proof.
  intros Hr Hf Hc. apply get_current_user_Return in Hr as [_ [evs Hr]].
  unfold handle, route, mbind, M_bind. rewrite Hr.
  destruct (delete_post_commit_failed id u (request_env inp st)
              (add_log (request_world st) evs) p Hf Hc) as (w' & -> & Hdb & Hca).
  simpl. unfold tick. by rewrite Hdb, Hca.
Qed.

Lemma handle_delete_committed st inp authorization id u p :
  resolves authorization inp st u →
  find_owned (st_db st) id (user_id u) = Some p →
  in_commit_ok inp = true →
  handle (DELETE_posts authorization id) inp st =
    (mkResponse HTTP_204_NO_CONTENT [] BodyEmpty,
     {| st_db := delete_post_row (st_db st) id;
        st_cache := ttl_pop (st_cache st) (user_email u)
                      (st_monotonic st + Z.of_N (in_elapsed inp));
        st_monotonic := st_monotonic st + Z.of_N (in_elapsed inp) |}).
Proof.
  intros Hr Hf Hc. apply get_current_user_Return in Hr as [_ [evs Hr]].
  unfold handle, route, mbind, M_bind. rewrite Hr.
  by rewrite (delete_post_committed id u _ _ p).
Qed.
End Handle.

(* ===================================================================== *)
(** ** The cache *)
(* ===================================================================== *)

Lemma links_find_elem k (c : TTLCache) l :
  links_find k c = Some l → l ∈ c ∧ link_key l = k.
Proof. unfold links_find. apply (head_filter_Some (λ l, link_key l = k)). Qed.

Lemma links_find_unique (c : TTLCache) l :
  NoDup (link_key <$> c) → l ∈ c → links_find (link_key l) c = Some l.
Proof. intros. unfold links_find. by apply (head_filter_key link_key). Qed.

Lemma links_find_remove_ne k k' (c : TTLCache) :
  k ≠ k' → links_find k' (links_remove k c) = links_find k' c.
Proof.
  intros Hne. unfold links_find, links_remove. rewrite list_filter_filter.
  f_equal. apply list_filter_iff. intros l. split; [tauto|].
  intros <-. split; [done|]. congruence.
Qed.

Lemma links_remove_elem k (c : TTLCache) l :
  l ∈ links_remove k c ↔ link_key l ≠ k ∧ l ∈ c.
Proof. unfold links_remove. apply (list_elem_of_filter (λ l, link_key l ≠ k)). Qed.

Lemma links_replace_nodup k (c : TTLCache) l :
  NoDup (link_key <$> c) → link_key l = k →
  NoDup (link_key <$> (links_remove k c ++ [l])).
Proof.
  intros Hnd Hk. rewrite fmap_app. apply NoDup_app. split; [|split].
  - by apply NoDup_fmap_filter.
  - intros k' Hin Hin'. simpl in Hin'. apply list_elem_of_singleton in Hin' as ->.
    apply list_elem_of_fmap in Hin as (l' & Heq & Hl').
    apply links_remove_elem in Hl' as [Hne _]. congruence.
  - simpl. apply NoDup_singleton.
Qed.

Lemma ttl_evict_sublist (c : TTLCache) : ttl_evict c `sublist_of` c.
Proof.
  induction c as [|l c IH]; [done|]. simpl.
  destruct (bool_decide _); [by apply sublist_cons|done].
Qed.

Lemma ttl_pop_elem (c : TTLCache) k t l : l ∈ ttl_pop c k t → l ∈ c.
Proof.
  unfold ttl_pop. destruct (ttl_contains c k t); [|done].
  intros Hin. by apply links_remove_elem in Hin as [_ ?].
Qed.

(** After [pop], an entry that is still stored under the key has expired. *)
Lemma ttl_pop_expired (c : TTLCache) k t l :
  NoDup (link_key <$> c) → l ∈ ttl_pop c k t → link_key l = k →
  link_expires l ≤ t.
Proof.
  intros Hnd Hin Hk. unfold ttl_pop in Hin.
  destruct (ttl_contains c k t) eqn:Hc.
  - apply links_remove_elem in Hin as [Hne _]. done.
  - unfold ttl_contains in Hc. rewrite <- Hk, links_find_unique in Hc by done.
    apply bool_decide_eq_false in Hc. lia.
Qed.

Lemma ttl_pop_nodup (c : TTLCache) k t :
  NoDup (link_key <$> c) → NoDup (link_key <$> ttl_pop c k t).
Proof.
  intros Hnd. unfold ttl_pop. destruct (ttl_contains c k t); [|done].
  by apply NoDup_fmap_filter.
Qed.

(** [pop] leaves the entries of the other keys as they are. *)
Lemma ttl_pop_other (c : TTLCache) k k' t :
  k ≠ k' → links_find k' (ttl_pop c k t) = links_find k' c.
Proof.
  intros Hne. unfold ttl_pop. destruct (ttl_contains c k t); [|done].
  by apply links_find_remove_ne.
Qed.

Lemma ttl_setitem_elem (c : TTLCache) k v t l :
  l ∈ ttl_setitem c k v t →
  l = mkLink k v (t + cache_ttl) ∨ (l ∈ c ∧ t < link_expires l ∧ link_key l ≠ k).
Proof.
  unfold ttl_setitem. intros Hin. apply elem_of_app in Hin as [Hin|Hin].
  - right. apply links_remove_elem in Hin as [Hne Hin].
    assert (l ∈ ttl_expire c t) as Hex.
    { destruct (links_find k (ttl_expire c t)); [done|].
      eapply elem_of_sublist; [done|apply ttl_evict_sublist]. }
    unfold ttl_expire in Hex. apply list_elem_of_filter in Hex as [? ?]. done.
  - left. by apply list_elem_of_singleton in Hin.
Qed.

Lemma ttl_setitem_nodup (c : TTLCache) k v t :
  NoDup (link_key <$> c) → NoDup (link_key <$> ttl_setitem c k v t).
Proof.
  intros Hnd. unfold ttl_setitem. apply links_replace_nodup; [|done].
  assert (NoDup (link_key <$> ttl_expire c t)) as Hex by by apply NoDup_fmap_filter.
  destruct (links_find k (ttl_expire c t)); [done|].
  eapply sublist_NoDup; [exact Hex|]. apply fmap_sublist, ttl_evict_sublist.
Qed.

(* ===================================================================== *)
(** ** The invariant *)
(* ===================================================================== *)

Lemma entry_fresh_insert_user db email hashed l :
  entry_fresh db l → entry_fresh (insert_user db email hashed) l.
Proof.
  intros (u & Hu & Hk & Hv). exists u. split; [|done].
  simpl. apply elem_of_app. by left.
Qed.

Lemma distinct_users_distinct_ids db u u' :
  db_wf db → u ∈ db_users db → u' ∈ db_users db →
  user_email u ≠ user_email u' → user_id u ≠ user_id u'.
Proof.
  intros Hwf Hu Hu' He Hid. apply He. f_equal.
  by apply (NoDup_fmap_key user_id (db_users db)); [apply Hwf|..].
Qed.

Lemma entry_fresh_insert_post db u text l :
  db_wf db → u ∈ db_users db → link_key l ≠ user_email u →
  entry_fresh db l → entry_fresh (insert_post db (user_id u) text) l.
Proof.
  intros Hwf Hu Hne (u' & Hu' & Hk & Hv). exists u'. split; [done|]. split; [done|].
  rewrite user_posts_insert_post, decide_False, app_nil_r; [done|].
  apply (distinct_users_distinct_ids db); try done. congruence.
Qed.

Lemma entry_fresh_delete_post db u id p l :
  db_wf db → u ∈ db_users db → find_owned db id (user_id u) = Some p →
  link_key l ≠ user_email u →
  entry_fresh db l → entry_fresh (delete_post_row db id) l.
Proof.
  intros Hwf Hu Hf Hne (u' & Hu' & Hk & Hv). exists u'. split; [done|]. split; [done|].
  apply find_owned_Some in Hf as (Hp & Hid & Hown).
  rewrite (user_posts_delete_other db id p); try done.
  rewrite Hown. apply (distinct_users_distinct_ids db); try done. congruence.
Qed.

Lemma effect_inv inp st st' : state_inv st → effect inp st st' → state_inv st'.
Proof.
  intros [Hwf [Hnd Hent]] Heff.
  pose proof (N2Z.is_nonneg (in_elapsed inp)) as Hel.
  destruct Heff as [|email hashed Hfresh|u text Hu|u l Hf|u Hu|u id p Hu Hf].
  - split; [done|]. split; [done|]. simpl. intros l Hl.
    destruct (Hent l Hl) as [?|?]; [left; lia|by right].
  - split; [by apply insert_user_wf|]. split; [done|]. simpl. intros l Hl.
    destruct (Hent l Hl) as [?|?]; [left; lia|right].
    by apply entry_fresh_insert_user.
  - split; [by apply insert_post_wf|]. split; [by apply ttl_pop_nodup|].
    simpl. intros l Hl.
    destruct (decide (link_key l = user_email u)) as [Hk|Hk].
    + left. by eapply ttl_pop_expired.
    + apply ttl_pop_elem in Hl.
      destruct (Hent l Hl) as [?|?]; [left; lia|right].
      by apply entry_fresh_insert_post.
  - split; [done|]. split; [apply links_replace_nodup; [done|by apply links_find_elem in Hf as [_ ?]]|].
    simpl. intros l' Hl'.
    assert (l' ∈ st_cache st) as Hin.
    { apply elem_of_app in Hl' as [Hl'|Hl'].
      - by apply links_remove_elem in Hl' as [_ ?].
      - apply list_elem_of_singleton in Hl' as ->. by apply links_find_elem in Hf as [? _]. }
    destruct (Hent l' Hin) as [?|?]; [left; lia|by right].
  - split; [done|]. split; [by apply ttl_setitem_nodup|]. simpl. intros l Hl.
    apply ttl_setitem_elem in Hl as [->|(Hin & _ & _)].
    + right. by exists u.
    + destruct (Hent l Hin) as [?|?]; [left; lia|by right].
  - split; [by apply delete_post_row_wf|]. split; [by apply ttl_pop_nodup|].
    simpl. intros l Hl.
    destruct (decide (link_key l = user_email u)) as [Hk|Hk].
    + left. by eapply ttl_pop_expired.
    + apply ttl_pop_elem in Hl.
      destruct (Hent l Hl) as [?|?]; [left; lia|right].
      by eapply entry_fresh_delete_post.
Qed.

(** The users table only grows, and its rows are never rewritten. *)
Lemma effect_users inp st st' u :
  effect inp st st' → u ∈ db_users (st_db st) → u ∈ db_users (st_db st').
Proof.
  intros Heff Hu. destruct Heff; simpl; try done.
  apply elem_of_app. by left.
Qed.

Section Transitions.
Context `{L : Libraries}.

Lemma resolves_cases authorization inp st :
  (∃ u, resolves authorization inp st u ∧ u ∈ db_users (st_db st)) ∨
  (∃ e, (get_current_user authorization (request_env inp st)
           (request_world st)).1 = Raise e).
Proof.
  destruct (get_current_user authorization (request_env inp st)
              (request_world st)).1 as [u|e] eqn:Hg; [left|right; by eexists].
  exists u. split; [done|]. by apply get_current_user_Return in Hg as [? _].
Qed.

Lemma ttl_contains_true (c : TTLCache) k t :
  ttl_contains c k t = true →
  ∃ l, links_find k c = Some l ∧ t < link_expires l.
Proof.
  unfold ttl_contains. destruct (links_find k c) as [l|]; [|done].
  intros Hb. apply bool_decide_eq_true in Hb. eauto.
Qed.

Lemma handle_effect req inp st :
  db_wf (st_db st) → effect inp st (handle req inp st).2.
Proof.
  intros Hwf. destruct req as [r|r|a r|a|a id].
  - destruct (find_email (st_db st) (signup_email r)) as [u0|] eqn:Hf.
    + rewrite handle_signup_taken; [constructor|].
      apply find_email_elem in Hf as [? ?]. by exists u0.
    + apply find_email_None in Hf.
      destruct (in_commit_ok inp) eqn:Hc.
      * rewrite handle_signup_created by done. by constructor.
      * rewrite handle_signup_failed by done. constructor.
  - destruct (find_email (st_db st) (login_email r)) as [u|] eqn:Hf.
    + destruct (verify_password u (login_password r)) eqn:Hv.
      * rewrite (handle_login_ok _ _ _ u) by done. constructor.
      * rewrite (handle_login_wrong_password _ _ _ u) by done. constructor.
    + apply find_email_None in Hf. rewrite handle_login_unknown by done.
      constructor.
  - destruct (resolves_cases a inp st) as [(u & Hr & Hu)|[e He]].
    + destruct (in_commit_ok inp) eqn:Hc.
      * destruct (handle_create_committed st inp a r u Hr Hc) as (p & -> & _).
        by constructor.
      * rewrite (handle_create_failed _ _ _ _ u) by done. constructor.
    + rewrite (handle_rejected _ a _ _ e) by done. constructor.
  - destruct (resolves_cases a inp st) as [(u & Hr & Hu)|[e He]].
    + destruct (ttl_contains (st_cache st) (user_email u)
                  (st_monotonic st + Z.of_N (in_elapsed inp))) eqn:Hc.
      * apply ttl_contains_true in Hc as (l & Hf & Hlt).
        rewrite (handle_read_hit _ _ _ u l) by done. by constructor.
      * rewrite (handle_read_miss _ _ _ u) by done. by constructor.
    + rewrite (handle_rejected _ a _ _ e) by done. constructor.
  - destruct (resolves_cases a inp st) as [(u & Hr & Hu)|[e He]].
    + destruct (find_owned (st_db st) id (user_id u)) as [p|] eqn:Hf.
      * destruct (in_commit_ok inp) eqn:Hc.
        -- rewrite (handle_delete_committed _ _ _ _ u p) by done.
           by econstructor.
        -- rewrite (handle_delete_failed _ _ _ _ u p) by done. constructor.
      * rewrite (handle_delete_not_found _ _ _ _ u) by done. constructor.
    + rewrite (handle_rejected _ a _ _ e) by done. constructor.
Qed.

Lemma handle_inv req inp st : state_inv st → state_inv (handle req inp st).2.
Proof.
  intros Hinv. eapply effect_inv; [done|]. apply handle_effect, Hinv.
Qed.

Lemma initial_state_inv : state_inv initial_state.
Proof.
  split; [apply empty_db_wf|]. split; simpl; [apply NoDup_nil_2|].
  intros l Hl. by apply not_elem_of_nil in Hl.
Qed.

Lemma run_inv trace st : state_inv st → state_inv (run trace st).
Proof.
  revert st. induction trace as [|[req inp] trace IH]; intros st Hinv; [done|].
  simpl. by apply IH, handle_inv.
Qed.

Lemma reachable_inv st : reachable st → state_inv st.
Proof. intros [trace ->]. apply run_inv, initial_state_inv. Qed.




(** A row of the users table stays where it is, whatever requests follow. *)
Lemma handle_users req inp st u :
  db_wf (st_db st) →
  u ∈ db_users (st_db st) → u ∈ db_users (st_db (handle req inp st).2).
Proof. intros Hwf. eapply effect_users. by apply handle_effect. Qed.

Lemma run_users trace st u :
  state_inv st → u ∈ db_users (st_db st) → u ∈ db_users (st_db (run trace st)).
Proof.
  revert st. induction trace as [|[req inp] trace IH]; intros st Hinv Hu; [done|].
  simpl. apply IH; [by apply handle_inv|]. apply handle_users; [apply Hinv|done].
Qed.
End Transitions.

(* ===================================================================== *)
(** ** The reference instance meets the contracts *)
(* ===================================================================== *)

Lemma reference_parse_unary n s :
  Reference.parse_unary (Reference.unary n +:+ s) = Some (n, s).
Proof.
  induction n as [|n IH]; simpl; [done|]. by rewrite IH.
Qed.

Lemma reference_roundtrip : jwt_roundtrip Reference.libs.
Proof.
  intros sub exp now p. subst p. simpl.
  assert (Reference.decode
            (Reference.encode (<["exp" := JNum exp]> {["sub" := JStr sub]})) now
          = if exp <=? now then inr ExpiredSignatureError
            else inl (<["exp" := JNum exp]> {["sub" := JStr sub]})) as ->.
  { unfold Reference.encode.
    rewrite lookup_insert_ne, lookup_singleton_eq, lookup_insert_eq by done.
    unfold Reference.decode. rewrite reference_parse_unary.
    destruct (Z.ltb_spec exp 0); simpl.
    - replace (- Z.of_nat (Z.abs_nat exp)) with exp by lia. done.
    - replace (Z.of_nat (Z.abs_nat exp)) with exp by lia. done. }
  split; intros Hlt; destruct (Z.leb_spec exp now); (done || lia).
Qed.



(** The scenario of the specification: signup, login, create, list,
    delete, list. *)
Example scenario :
  let at_ t := mkInput t 1 true "salt" in
  let authorization := "Bearer " +:+ issued_token (L := Reference.libs) "a@x.com" 6 in
  responses (L := Reference.libs)
    [(POST_signup (mkSignupRequest "a@x.com" "password1"), at_ 5);
     (POST_login (mkLoginRequest "a@x.com" "password1"), at_ 6);
     (POST_posts authorization (mkPostRequest "hi"), at_ 7);
     (GET_posts authorization, at_ 8);
     (DELETE_posts authorization 1, at_ 9);
     (GET_posts authorization, at_ 10)]
    initial_state
  = [token_response (L := Reference.libs) 201 "a@x.com" 5;
     token_response (L := Reference.libs) 200 "a@x.com" 6;
     mkResponse 201 [] (BodyPost 1 "hi");
     mkResponse 200 [] (BodyPosts [(1, "hi")]);
     mkResponse 204 [] BodyEmpty;
     mkResponse 200 [] (BodyPosts [])].
Proof. vm_compute. reflexivity. Qed.

(** Python's [split] on a single space. *)
Example split_space_examples :
  split_space "Bearer abc" = ["Bearer"; "abc"] ∧
  split_space "Bearerabc" = ["Bearerabc"] ∧
  split_space "Bearer  abc" = ["Bearer"; ""; "abc"] ∧
  split_space "" = [""] ∧
  split_space " abc" = [""; "abc"].
Proof. repeat split. Qed.

(* ===================================================================== *)
(** ** Identity resolution: status codes *)
(* ===================================================================== *)

(** C1.  The specification promises 401 with [WWW-Authenticate: Bearer] for
    every authentication failure behind a header that splits into two
    parts.  In the code each of these failures is raised as an
    [HTTPException] with status 401 inside the [try] block of
    [get_current_user], and [HTTPException] is an [Exception]: the final
    [except Exception] clause catches it and raises status 500 instead.
    So a protected request whose two-part header does not resolve to a user
    is answered with 500, never 401. *)
Theorem auth_failure_answers_500 `{L : Libraries}
  req authorization token_prefix token inp st :
  protected req = Some authorization →
  split_space authorization = [token_prefix; token] →
  (∀ u, ¬ resolves authorization inp st u) →
  resp_status (handle req inp st).1 = HTTP_500_INTERNAL_SERVER_ERROR ∧
  resp_headers (handle req inp st).1 = www_authenticate.
Proof.
  intros Hp Hs Hno.
  destruct (resolves_cases authorization inp st) as [(u & Hr & _)|[e He]];
    [by destruct (Hno u)|].
  rewrite (handle_rejected _ _ _ _ e Hp He). simpl.
  apply get_current_user_Raise in He as [evs He].
  by destruct (get_current_user_two_parts _ _ _ _ _ _ _ Hs He) as [detail ->].
Qed.

Lemma auth_failure_answers_500_witness :
  resp_status (handle (L := Reference.libs) (GET_posts "Token abc")
                 (mkInput 0 0 true "") initial_state).1 = 500 ∧
  resp_headers (handle (L := Reference.libs) (GET_posts "Token abc")
                  (mkInput 0 0 true "") initial_state).1
    = [("WWW-Authenticate", "Bearer")].
Proof.
  apply (auth_failure_answers_500 (L := Reference.libs)
           (GET_posts "Token abc") "Token abc" "Token" "abc").
  - reflexivity.
  - reflexivity.
  - intros u. unfold resolves. vm_compute. discriminate.
Defined.

(** C3, as stated, at the header ["Token abc"]: it is malformed in the
    sense of the specification, and it is not answered with the
    malformed-header error. *)
Lemma wrong_scheme_is_not_answered_400 :
  malformed_header "Token abc" ∧
  (get_current_user (L := Reference.libs) "Token abc"
     (mkEnv 0 0 true "") (request_world initial_state)).1
    ≠ Raise malformed_header_error ∧
  resp_status (handle (L := Reference.libs) (GET_posts "Token abc")
                 (mkInput 0 0 true "") initial_state).1
    ≠ HTTP_400_BAD_REQUEST.
Proof.
  split; [|split].
  - unfold malformed_header. simpl. discriminate.
  - vm_compute. discriminate.
  - vm_compute. discriminate.
Qed.

(** C3, amended.  A header value that does not split at single spaces into
    exactly two parts is rejected with the malformed-header error (400), and
    the world is left as it was: in particular nothing is appended to the
    log of library calls, so no token verification has been attempted.  A
    value that splits into two parts whose first part is not ["Bearer"] is
    rejected before any token verification as well, but not with the
    malformed-header error. *)
Theorem malformed_header_rejected_before_verification `{L : Libraries}
  authorization env w :
  (length (split_space authorization) ≠ 2%nat →
   get_current_user authorization env w = (Raise malformed_header_error, w)) ∧
  (∀ token_prefix token,
     split_space authorization = [token_prefix; token] →
     token_prefix ≠ "Bearer" →
     ∃ e, get_current_user authorization env w = (Raise e, w) ∧
          e ≠ malformed_header_error).
Proof.
  split.
  - apply get_current_user_malformed.
  - intros p t Hs Hp. eexists. split.
    + by apply (get_current_user_wrong_prefix _ p t).
    + discriminate.
Qed.

Lemma malformed_header_rejected_before_verification_witness :
  get_current_user (L := Reference.libs) "Bearerabc"
    (mkEnv 0 0 true "") (request_world initial_state)
  = (Raise malformed_header_error, request_world initial_state) ∧
  ∃ e, get_current_user (L := Reference.libs) "Token abc"
         (mkEnv 0 0 true "") (request_world initial_state)
       = (Raise e, request_world initial_state) ∧ e ≠ malformed_header_error.
Proof.
  split.
  - apply (proj1 (malformed_header_rejected_before_verification
                    (L := Reference.libs) "Bearerabc" _ _)).
    simpl. lia.
  - apply (proj2 (malformed_header_rejected_before_verification
                    (L := Reference.libs) "Token abc" _ _) "Token" "abc").
    + reflexivity.
    + discriminate.
Defined.

(* ===================================================================== *)
(** ** Token lifetime *)
(* ===================================================================== *)

(** C7.  The specification promises an expiry of issue time plus the given
    ttl.  [create_access_token] tests the ttl for truth, and
    [timedelta(0)] is false: a token issued with ttl 0 is the token issued
    with no ttl at all, and its expiry claim is issue time plus one day,
    which is not issue time plus 0. *)
Theorem zero_ttl_gets_default_expiry `{L : Libraries} data env w :
  create_access_token data (Some 0) env w = create_access_token data None env w ∧
  create_access_token data (Some 0) env w =
    (Return (jwt_encode (<["exp" := JNum (env_utcnow env + 86400)]> data)), w) ∧
  env_utcnow env + 86400 ≠ env_utcnow env + 0.
Proof.
  split; [|split].
  - by rewrite !create_access_token_run.
  - apply create_access_token_run.
  - lia.
Qed.

(** C4.  The specification promises that a token issued with ttl T is
    expired at any time after issue time plus T.  A token issued with
    ttl 0 is still accepted during the whole following day (the same defect
    as in C7). *)
Theorem zero_ttl_token_is_accepted `{L : Libraries} sub env w env' w' :
  jwt_roundtrip L →
  env_utcnow env < env_utcnow env' < env_utcnow env + 86400 →
  ∃ token,
    create_access_token {["sub" := JStr sub]} (Some 0) env w = (Return token, w) ∧
    decode_jwt_token token env' w' =
      (Return (<["exp" := JNum (env_utcnow env + 86400)]> {["sub" := JStr sub]}),
       add_log w' [EvJwtDecode token]).
Proof.
  intros Hrt [_ Hlt]. eexists. split; [apply create_access_token_run|]. simpl.
  rewrite decode_jwt_token_run.
  destruct (Hrt sub (env_utcnow env + 86400) (env_utcnow env')) as [Hok _].
  change (timedelta_days 1) with 86400. by rewrite Hok.
Qed.

Lemma zero_ttl_token_is_accepted_witness :
  ∃ token,
    create_access_token (L := Reference.libs) {["sub" := JStr "a@x.com"]} (Some 0)
      (mkEnv 100 0 true "") (request_world initial_state)
      = (Return token, request_world initial_state) ∧
    decode_jwt_token (L := Reference.libs) token
      (mkEnv 101 0 true "") (request_world initial_state)
      = (Return (<["exp" := JNum (100 + 86400)]> {["sub" := JStr "a@x.com"]}),
         add_log (request_world initial_state) [EvJwtDecode token]).
Proof.
  apply (zero_ttl_token_is_accepted (L := Reference.libs) "a@x.com"
           (mkEnv 100 0 true "") _ (mkEnv 101 0 true "") _).
  - apply reference_roundtrip.
  - simpl. lia.
Defined.

Section Claims.
Context `{L : Libraries}.

(** *** Reading posts *)


(** What a 201 from [POST /posts] and a 204 from [DELETE /posts/{id}]
    tell about the request. *)
Lemma handle_create_201 st inp authorization request u resp st1 :
  db_wf (st_db st) → resolves authorization inp st u →
  handle (POST_posts authorization request) inp st = (resp, st1) →
  resp_status resp = HTTP_201_CREATED →
  resp = mkResponse HTTP_201_CREATED []
           (BodyPost (db_post_seq (st_db st)) (request_text request)) ∧
  st_db st1 = insert_post (st_db st) (user_id u) (request_text request).
Proof.
  intros Hwf Hr Hh Hs. destruct (in_commit_ok inp) eqn:Hc.
  - destruct (handle_create_committed st inp authorization request u Hr Hc)
      as (p & Hrun & Hp).
    rewrite Hrun in Hh. simplify_eq. by rewrite (Hp Hwf).
  - rewrite (handle_create_failed _ _ _ _ u) in Hh by done. by simplify_eq.
Qed.

Lemma handle_delete_204 st inp authorization id u resp st1 :
  resolves authorization inp st u →
  handle (DELETE_posts authorization id) inp st = (resp, st1) →
  resp_status resp = HTTP_204_NO_CONTENT →
  st_db st1 = delete_post_row (st_db st) id.
Proof.
  intros Hr Hh Hs.
  destruct (find_owned (st_db st) id (user_id u)) as [p|] eqn:Hf.
  - destruct (in_commit_ok inp) eqn:Hc.
    + rewrite (handle_delete_committed _ _ _ _ u p) in Hh by done. by simplify_eq.
    + rewrite (handle_delete_failed _ _ _ _ u p) in Hh by done. by simplify_eq.
  - rewrite (handle_delete_not_found _ _ _ _ u) in Hh by done. by simplify_eq.
Qed.
End Claims.



(* ===================================================================== *)
(** ** Signup and login *)
(* ===================================================================== *)

Section Accounts.
Context `{L : Libraries}.

(** What a 201 from [POST /signup] tells about the request. *)
Lemma handle_signup_201 st inp request resp st1 :
  db_wf (st_db st) →
  handle (POST_signup request) inp st = (resp, st1) →
  resp_status resp = HTTP_201_CREATED →
  ¬ email_registered (st_db st) (signup_email request) ∧
  in_commit_ok inp = true ∧
  st_db st1 = insert_user (st_db st) (signup_email request)
                (pwd_context_hash (in_salt inp) (signup_password request)).
Proof.
  intros Hwf Hh Hs.
  destruct (find_email (st_db st) (signup_email request)) as [u0|] eqn:Hf.
  - rewrite handle_signup_taken in Hh; [by simplify_eq|].
    apply find_email_elem in Hf as [? ?]. by exists u0.
  - apply find_email_None in Hf. destruct (in_commit_ok inp) eqn:Hc.
    + rewrite handle_signup_created in Hh by done. by simplify_eq.
    + rewrite handle_signup_failed in Hh by done. by simplify_eq.
Qed.

(** The row written by a successful signup is still the row of that
    e-mail address after any sequence of requests. *)
Lemma signed_up_row st inp request resp st1 trace :
  reachable st →
  handle (POST_signup request) inp st = (resp, st1) →
  resp_status resp = HTTP_201_CREATED →
  state_inv (run trace st1) ∧
  find_email (st_db (run trace st1)) (signup_email request) =
    Some (mkUser (db_user_seq (st_db st)) (signup_email request)
            (pwd_context_hash (in_salt inp) (signup_password request))).
Proof.
  intros Hreach Hh Hs.
  assert (state_inv st1) as Hinv1.
  { replace st1 with (handle (POST_signup request) inp st).2 by by rewrite Hh.
    by apply handle_inv, reachable_inv. }
  pose proof (run_inv trace st1 Hinv1) as Hinv2. split; [done|].
  apply reachable_inv in Hreach as [Hwf _].
  destruct (handle_signup_201 _ _ _ _ _ Hwf Hh Hs) as (_ & _ & Hdb).
  set (u := mkUser _ _ _).
  apply (find_email_Some _ u); [apply Hinv2|].
  apply run_users; [done|]. rewrite Hdb. simpl. apply elem_of_app. right.
  by apply list_elem_of_singleton.
Qed.
End Accounts.

(** C5.  From any reachable state: a signup with an e-mail address that is
    not registered yet, whose commit the database accepts, is answered 201
    and adds exactly one row to the users table; the row stores the output
    of the password hasher for the drawn salt and the password (the User
    record has no other field a password could be kept in), and the posts
    table is untouched.  After a signup answered 201, whatever requests
    follow, every signup with the same e-mail address is answered 400
    "Email already registered" and changes neither table nor cache. *)
Theorem signup_once_per_email `{L : Libraries} st inp request :
  reachable st →
  (¬ email_registered (st_db st) (signup_email request) →
   in_commit_ok inp = true →
   ∃ st1,
     handle (POST_signup request) inp st =
       (token_response HTTP_201_CREATED (signup_email request) (in_utcnow inp), st1) ∧
     db_users (st_db st1) =
       db_users (st_db st) ++
       [mkUser (db_user_seq (st_db st)) (signup_email request)
          (pwd_context_hash (in_salt inp) (signup_password request))] ∧
     db_posts (st_db st1) = db_posts (st_db st)) ∧
  (∀ resp st1 trace password' inp',
     handle (POST_signup request) inp st = (resp, st1) →
     resp_status resp = HTTP_201_CREATED →
     handle (POST_signup (mkSignupRequest (signup_email request) password'))
            inp' (run trace st1)
     = (email_taken_response, tick inp' (run trace st1))).
Proof.
  intros Hreach. split.
  - intros Hfresh Hc. apply reachable_inv in Hreach as [Hwf _].
    eexists. split; [by apply handle_signup_created|]. done.
  - intros resp st1 trace password' inp' Hh Hs.
    destruct (signed_up_row st inp request resp st1 trace Hreach Hh Hs)
      as [_ Hf].
    apply handle_signup_taken. simpl.
    apply find_email_elem in Hf as [? ?]. by eexists.
Qed.

Lemma signup_once_per_email_witness :
  let i := mkInput 5 1 true "salt" in
  let r := mkSignupRequest "a@x.com" "password1" in
  (handle (L := Reference.libs) (POST_signup (mkSignupRequest "a@x.com" "other"))
     i (handle (L := Reference.libs) (POST_signup r) i initial_state).2).1
  = email_taken_response.
Proof.
  intros i r.
  pose proof (proj2 (signup_once_per_email (L := Reference.libs)
                       initial_state i r (ex_intro _ [] eq_refl))
                (handle (L := Reference.libs) (POST_signup r) i initial_state).1
                (handle (L := Reference.libs) (POST_signup r) i initial_state).2
                [] "other" i (surjective_pairing _)) as H.
  apply (f_equal fst) in H; [exact H|].
  vm_compute. reflexivity.
Defined.



(** C9.  In a reachable state, a login with an e-mail address that no row
    carries and a login with the e-mail address of a row whose hash the
    submitted password does not verify against receive the same response,
    whatever the clock and the other inputs of the two requests: status
    401, detail "Invalid credentials", header [WWW-Authenticate: Bearer]. *)
Theorem login_failures_are_indistinguishable `{L : Libraries}
  st inp1 inp2 request1 request2 u :
  reachable st →
  ¬ email_registered (st_db st) (login_email request1) →
  u ∈ db_users (st_db st) →
  user_email u = login_email request2 →
  verify_password u (login_password request2) = false →
  (handle (POST_login request1) inp1 st).1 = (handle (POST_login request2) inp2 st).1 ∧
  (handle (POST_login request1) inp1 st).1 =
    mkResponse 401 [("WWW-Authenticate", "Bearer")] (BodyDetail "Invalid credentials").
Proof.
  intros Hreach Hfresh Hu He Hv. apply reachable_inv in Hreach as [Hwf _].
  rewrite handle_login_unknown by done.
  rewrite (handle_login_wrong_password _ _ _ u); [done| |done].
  rewrite <- He. by apply find_email_Some.
Qed.

Lemma login_failures_are_indistinguishable_witness :
  let i := mkInput 5 1 true "salt" in
  let st := (handle (L := Reference.libs)
               (POST_signup (mkSignupRequest "a@x.com" "password1")) i
               initial_state).2 in
  (handle (L := Reference.libs) (POST_login (mkLoginRequest "b@x.com" "password1"))
     i st).1
  = (handle (L := Reference.libs) (POST_login (mkLoginRequest "a@x.com" "password2"))
       (mkInput 9 3 true "pepper") st).1 ∧
  (handle (L := Reference.libs) (POST_login (mkLoginRequest "b@x.com" "password1"))
     i st).1
  = mkResponse 401 [("WWW-Authenticate", "Bearer")] (BodyDetail "Invalid credentials").
Proof.
  intros i st.
  apply (login_failures_are_indistinguishable (L := Reference.libs)
           st i (mkInput 9 3 true "pepper")
           (mkLoginRequest "b@x.com" "password1")
           (mkLoginRequest "a@x.com" "password2")
           (mkUser 1 "a@x.com" "$password1")).
  - exists [(POST_signup (mkSignupRequest "a@x.com" "password1"), i)].
    reflexivity.
  - intros (u & Hu & He). vm_compute in Hu.
    apply list_elem_of_singleton in Hu as ->. discriminate.
  - vm_compute. apply list_elem_of_singleton. reflexivity.
  - reflexivity.
  - vm_compute. reflexivity.
Defined.

(* ===================================================================== *)
(** ** Deleting a post *)
(* ===================================================================== *)




(* ===================================================================== *)
(** ** What a mutation does to the cache *)
(* ===================================================================== *)

(** C10.  For a caller [u] that identity resolution accepts, whatever the
    outcome of [POST /posts] or [DELETE /posts/{id}]: the cache afterwards
    is the cache before, or the cache before without the entry keyed by
    [u]'s e-mail address; for every other e-mail address the entry found
    under it (whether there is one, its value and its expiry) is the same
    before and after. *)
Theorem mutation_touches_own_cache_entry_only `{L : Libraries}
  st inp authorization u mutation :
  resolves authorization inp st u →
  (∃ request, mutation = POST_posts authorization request) ∨
  (∃ id, mutation = DELETE_posts authorization id) →
  (st_cache (handle mutation inp st).2 = st_cache st ∨
   st_cache (handle mutation inp st).2
     = links_remove (user_email u) (st_cache st)) ∧
  (∀ email, email ≠ user_email u →
     links_find email (st_cache (handle mutation inp st).2)
       = links_find email (st_cache st)).
Proof.
  intros Hr Hmut.
  assert (st_cache (handle mutation inp st).2 = st_cache st ∨
          st_cache (handle mutation inp st).2
            = ttl_pop (st_cache st) (user_email u)
                (st_monotonic st + Z.of_N (in_elapsed inp))) as Hcache.
  { destruct Hmut as [(request & ->)|(id & ->)].
    - destruct (in_commit_ok inp) eqn:Hc.
      + destruct (handle_create_committed st inp authorization request u Hr Hc)
          as (p & -> & _). by right.
      + rewrite (handle_create_failed _ _ _ _ u) by done. by left.
    - destruct (find_owned (st_db st) id (user_id u)) as [p|] eqn:Hf.
      + destruct (in_commit_ok inp) eqn:Hc.
        * rewrite (handle_delete_committed _ _ _ _ u p) by done. by right.
        * rewrite (handle_delete_failed _ _ _ _ u p) by done. by left.
      + rewrite (handle_delete_not_found _ _ _ _ u) by done. by left. }
  split.
  - destruct Hcache as [->| ->]; [by left|]. unfold ttl_pop.
    destruct (ttl_contains _ _ _); [by right|by left].
  - intros email Hne. destruct Hcache as [->| ->]; [done|].
    by apply ttl_pop_other.
Qed.

Lemma mutation_touches_own_cache_entry_only_witness :
  let i := mkInput 5 1 true "salt" in
  let a := "Bearer +1111111111.a@x.com" in
  let b := "Bearer +1111111111.b@x.com" in
  let st := run (L := Reference.libs)
              [(POST_signup (mkSignupRequest "a@x.com" "password1"), i);
               (POST_signup (mkSignupRequest "b@x.com" "password2"), i);
               (GET_posts a, i); (GET_posts b, i)] initial_state in
  links_find "b@x.com"
    (st_cache (handle (L := Reference.libs) (POST_posts a (mkPostRequest "hi")) i st).2)
  = Some (mkLink "b@x.com" [] 304).
Proof.
  intros i a b st.
  rewrite (proj2 (mutation_touches_own_cache_entry_only (L := Reference.libs)
                    st i a (mkUser 1 "a@x.com" "$password1")
                    (POST_posts a (mkPostRequest "hi"))
                    ltac:(vm_compute; reflexivity)
                    ltac:(left; eexists; reflexivity)) "b@x.com"
             ltac:(discriminate)).
  vm_compute. reflexivity.
Defined.

(* ===================================================================== *)
(** ** Splitting a header value *)
(* ===================================================================== *)

Lemma split_on_length sep s :
  length (split_on sep s) = S (count_char sep s).
Proof.
  induction s as [|a s IH]; simpl; [done|].
  destruct (Ascii.eqb a sep); simpl; [by rewrite IH|].
  destruct (split_on sep s); simpl in *; done.
Qed.

Lemma split_on_no_separator sep s :
  count_char sep s = 0%nat → split_on sep s = [s].
Proof.
  induction s as [|a s IH]; simpl; [done|].
  destruct (Ascii.eqb a sep); simpl; [done|].
  intros Hc. by rewrite IH.
Qed.

Lemma split_on_one sep s t :
  split_on sep s = [t] ↔ s = t ∧ count_char sep s = 0%nat.
Proof.
  split.
  - intros Hs. pose proof (split_on_length sep s) as Hl. rewrite Hs in Hl.
    simpl in Hl. assert (count_char sep s = 0%nat) as Hc by lia.
    rewrite (split_on_no_separator _ _ Hc) in Hs. by simplify_eq.
  - intros [-> Hc]. by apply split_on_no_separator.
Qed.

(** A value splits into exactly two parts when it is two parts without the
    separator, joined by one separator. *)
Lemma split_on_two sep s p t :
  split_on sep s = [p; t] ↔
  s = p +:+ String sep t ∧ count_char sep p = 0%nat ∧ count_char sep t = 0%nat.
Proof.
  revert p. induction s as [|a s IH]; intros p; simpl.
  - split; [done|]. intros (Hs & _ & _). by destruct p.
  - destruct (Ascii.eqb_spec a sep) as [->|Hne].
    + split.
      * intros [= <- Hs]. apply split_on_one in Hs as [-> Hc]. done.
      * intros (Hs & Hp & Ht). destruct p as [|b p]; simpl in *.
        -- change (String sep s = String sep t) in Hs. simplify_eq.
           by rewrite split_on_no_separator.
        -- change (String sep s = String b (p +:+ String sep t)) in Hs.
           simplify_eq. by rewrite Ascii.eqb_refl in Hp.
    + split.
      * destruct (split_on sep s) as [|w ws] eqn:Hs; [done|].
        intros [= <- ->]. destruct (proj1 (IH w) eq_refl) as (-> & Hw & Ht).
        simpl. destruct (Ascii.eqb_spec a sep); done.
      * intros (Hs & Hp & Ht). destruct p as [|b p]; simpl in *.
        -- change (String a s = String sep t) in Hs. by simplify_eq.
        -- change (String a s = String b (p +:+ String sep t)) in Hs.
           simplify_eq. destruct (Ascii.eqb_spec b sep); [done|].
           simpl in Hp.
           by rewrite (proj2 (IH p) (conj eq_refl (conj Hp Ht))).
Qed.

Section Headers.
Context `{L : Libraries}.

Lemma lookup_subject_str db email :
  lookup_subject (JStr email) db = find_email db email.
Proof.
  unfold lookup_subject, find_email. f_equal. apply list_filter_iff.
  intros u. rewrite !bool_decide_spec. split; [by intros [= ->]|by intros ->].
Qed.

Lemma lookup_subject_num db n : lookup_subject (JNum n) db = None.
Proof.
  unfold lookup_subject. apply head_filter_None. intros u _ Hu.
  by apply bool_decide_spec in Hu.
Qed.

End Headers.

(** X3.  [get_current_user] raises the malformed-header error (400) for
    exactly the header values that do not contain exactly one space
    character: no space, or two or more, wherever they stand. *)
Theorem malformed_header_error_iff_not_one_space `{L : Libraries}
  authorization env w :
  (get_current_user authorization env w).1 = Raise malformed_header_error ↔
  count_space authorization ≠ 1%nat.
Proof.
  pose proof (split_on_length " " authorization) as Hlen.
  fold (split_space authorization) in Hlen. fold (count_space authorization) in Hlen.
  split.
  - intros He Hc.
    destruct (split_space authorization) as [|p [|t [|x r]]] eqn:Hs;
      simpl in Hlen; try lia.
    destruct (get_current_user authorization env w) as [o w'] eqn:Hg.
    simpl in He. subst o.
    by destruct (get_current_user_two_parts _ _ _ _ _ _ _ Hs Hg) as [d Hd].
  - intros Hc. rewrite get_current_user_malformed; [done|]. lia.
Qed.

Section Resolution.
Context `{L : Libraries}.

Lemma resolves_intro authorization inp st u token p email :
  authorization = "Bearer " +:+ token →
  count_space token = 0%nat →
  jwt_decode token (in_utcnow inp) = inl p →
  p !! "sub" = Some (JStr email) →
  find_email (st_db st) email = Some u →
  resolves authorization inp st u.
Proof.
  intros -> Hc Hd Hsub Hf. unfold resolves.
  assert (split_space ("Bearer " +:+ token) = ["Bearer"; token]) as Hs.
  { apply (split_on_two " " _ "Bearer" token). by repeat split. }
  rewrite (get_current_user_bearer _ _ _ _ Hs). simpl.
  by rewrite Hd, Hsub, lookup_subject_str, Hf.
Qed.

Lemma resolves_elim authorization inp st u :
  resolves authorization inp st u →
  ∃ token p email,
    authorization = "Bearer " +:+ token ∧
    count_space token = 0%nat ∧
    jwt_decode token (in_utcnow inp) = inl p ∧
    p !! "sub" = Some (JStr email) ∧
    find_email (st_db st) email = Some u.
Proof.
  unfold resolves.
  destruct (split_space_cases authorization) as [Hl|[(q & t & Hs & Hq)|(t & Hs)]].
  - by rewrite get_current_user_malformed.
  - by rewrite (get_current_user_wrong_prefix _ _ _ _ _ Hs Hq).
  - rewrite (get_current_user_bearer _ _ _ _ Hs). simpl.
    apply (split_on_two " " _ "Bearer" t) in Hs as (-> & _ & Ht).
    destruct (jwt_decode _ _) as [p|e] eqn:Hd; [|done].
    destruct (p !! "sub") as [[email|n]|] eqn:Hsub; [| |done].
    + rewrite lookup_subject_str.
      destruct (find_email _ _) as [u'|] eqn:Hf; [|done].
      simpl. intros [= ->]. by exists t, p, email.
    + by rewrite lookup_subject_num.
Qed.

Lemma issued_token_resolves st inp u t0 :
  jwt_roundtrip L → db_wf (st_db st) → u ∈ db_users (st_db st) →
  count_space (issued_token (user_email u) t0) = 0%nat →
  in_utcnow inp < t0 + 3600 →
  resolves ("Bearer " +:+ issued_token (user_email u) t0) inp st u.
Proof.
  intros Hrt Hwf Hu Hc Hlt.
  destruct (Hrt (user_email u) (t0 + 3600) (in_utcnow inp)) as [Hok _].
  eapply resolves_intro; [done|done|by apply Hok| |by apply find_email_Some].
  by rewrite lookup_insert_ne, lookup_singleton_eq.
Qed.

Lemma issued_token_expired st inp req email t0 :
  jwt_roundtrip L →
  count_space (issued_token email t0) = 0%nat →
  t0 + 3600 < in_utcnow inp →
  protected req = Some ("Bearer " +:+ issued_token email t0) →
  (handle req inp st).1 =
    mkResponse 500 [("WWW-Authenticate", "Bearer")]
      (BodyDetail "An unexpected error occurred: 401: Token has expired").
Proof.
  intros Hrt Hc Hlt Hp.
  destruct (Hrt email (t0 + 3600) (in_utcnow inp)) as [_ Hex].
  assert (split_space ("Bearer " +:+ issued_token email t0)
          = ["Bearer"; issued_token email t0]) as Hs.
  { apply (split_on_two " " _ "Bearer"). by repeat split. }
  rewrite (handle_rejected _ _ _ _
             (unexpected (unauthorized "Token has expired")) Hp); [done|].
  rewrite (get_current_user_bearer _ _ _ _ Hs). simpl.
  unfold issued_token. change (timedelta_hours 1) with 3600.
  by rewrite (Hex Hlt).
Qed.

(** What a token in the body of a signup or login response tells. *)
Lemma handle_signup_token st inp request resp st1 tr :
  db_wf (st_db st) →
  handle (POST_signup request) inp st = (resp, st1) →
  resp_body resp = BodyToken tr →
  resp_status resp = HTTP_201_CREATED ∧
  access_token tr = issued_token (signup_email request) (in_utcnow inp).
Proof.
  intros Hwf Hh Hb.
  destruct (find_email (st_db st) (signup_email request)) as [u0|] eqn:Hf.
  - rewrite handle_signup_taken in Hh; [by simplify_eq|].
    apply find_email_elem in Hf as [? ?]. by exists u0.
  - apply find_email_None in Hf. destruct (in_commit_ok inp) eqn:Hc.
    + rewrite handle_signup_created in Hh by done. by simplify_eq/=.
    + rewrite handle_signup_failed in Hh by done. by simplify_eq.
Qed.

Lemma handle_login_token st inp request resp st1 tr :
  handle (POST_login request) inp st = (resp, st1) →
  resp_body resp = BodyToken tr →
  st1 = tick inp st ∧
  ∃ u, find_email (st_db st) (login_email request) = Some u ∧
       verify_password u (login_password request) = true ∧
       access_token tr = issued_token (user_email u) (in_utcnow inp).
Proof.
  intros Hh Hb.
  destruct (find_email (st_db st) (login_email request)) as [u|] eqn:Hf.
  - destruct (verify_password u (login_password request)) eqn:Hv.
    + rewrite (handle_login_ok _ _ _ u) in Hh by done. simplify_eq/=.
      split; [done|]. by exists u.
    + rewrite (handle_login_wrong_password _ _ _ u) in Hh by done. by simplify_eq.
  - apply find_email_None in Hf. rewrite handle_login_unknown in Hh by done.
    by simplify_eq.
Qed.

End Resolution.

(** X2.  Identity resolution yields a user exactly when the header is the
    word [Bearer] (in this spelling), one space, and a token without spaces
    that the token library decodes at the current time, whose [sub] claim
    is a string and is the e-mail address of a row of the users table; the
    user is the first such row. *)
Theorem resolves_iff `{L : Libraries} authorization inp st u :
  resolves authorization inp st u ↔
  ∃ token p email,
    authorization = "Bearer " +:+ token ∧
    count_space token = 0%nat ∧
    jwt_decode token (in_utcnow inp) = inl p ∧
    p !! "sub" = Some (JStr email) ∧
    find_email (st_db st) email = Some u.
Proof.
  split.
  - apply resolves_elim.
  - intros (token & p & email & Ha & Hc & Hd & Hs & Hf).
    by eapply resolves_intro.
Qed.

(** X1.  The token in the body of a signup or login response belongs to a
    row of the users table with the e-mail address of the request.
    Presented as [Bearer <token>] after any sequence of further requests,
    it resolves to that row at every time before issue time plus 3600
    seconds; at every time after that, a protected request carrying it is
    answered 500 with the detail of the swallowed "Token has expired"
    error.  (The token library is taken by its contract, and its tokens
    contain no space.) *)
Theorem issued_token_is_good_for_one_hour `{L : Libraries}
  st inp req resp st1 tr :
  jwt_roundtrip L →
  reachable st →
  (∃ r, req = POST_signup r) ∨ (∃ r, req = POST_login r) →
  handle req inp st = (resp, st1) →
  resp_body resp = BodyToken tr →
  count_space (access_token tr) = 0%nat →
  ∃ u,
    u ∈ db_users (st_db st1) ∧
    (∀ r, req = POST_signup r → user_email u = signup_email r) ∧
    (∀ r, req = POST_login r → user_email u = login_email r) ∧
    ∀ trace inp',
      (in_utcnow inp' < in_utcnow inp + 3600 →
       resolves ("Bearer " +:+ access_token tr) inp' (run trace st1) u) ∧
      (in_utcnow inp + 3600 < in_utcnow inp' →
       ∀ req', protected req' = Some ("Bearer " +:+ access_token tr) →
         (handle req' inp' (run trace st1)).1 =
           mkResponse 500 [("WWW-Authenticate", "Bearer")]
             (BodyDetail "An unexpected error occurred: 401: Token has expired")).
Proof.
  intros Hrt Hreach Hreq Hh Hb Hc.
  assert (state_inv st1) as Hinv1.
  { replace st1 with (handle req inp st).2 by by rewrite Hh.
    by apply handle_inv, reachable_inv. }
  apply reachable_inv in Hreach as [Hwf _].
  assert (∃ u, u ∈ db_users (st_db st1) ∧
               access_token tr = issued_token (user_email u) (in_utcnow inp) ∧
               (∀ r, req = POST_signup r → user_email u = signup_email r) ∧
               (∀ r, req = POST_login r → user_email u = login_email r))
    as (u & Hu & Htok & Hsig & Hlog).
  { destruct Hreq as [[r ->]|[r ->]].
    - destruct (handle_signup_token _ _ _ _ _ _ Hwf Hh Hb) as [Hs Htok].
      destruct (handle_signup_201 _ _ _ _ _ Hwf Hh Hs) as (_ & _ & Hdb).
      eexists (mkUser _ (signup_email r) _). split; [|split; [done|split]].
      + rewrite Hdb. simpl. apply elem_of_app. right.
        by apply list_elem_of_singleton.
      + by intros r' [= ->].
      + done.
    - destruct (handle_login_token _ _ _ _ _ _ Hh Hb) as (-> & u & Hf & _ & Htok).
      apply find_email_elem in Hf as [Hu He].
      exists u. split; [done|]. split; [done|]. split; [done|].
      by intros r' [= ->]. }
  exists u. split; [done|]. split; [done|]. split; [done|].
  intros trace inp'. rewrite Htok in Hc. rewrite Htok. split.
  - intros Hlt. apply issued_token_resolves; try done.
    + apply (run_inv trace st1 Hinv1).
    + by apply run_users.
  - intros Hlt req' Hp.
    by apply (issued_token_expired _ _ _ (user_email u) (in_utcnow inp)).
Qed.

(* ===================================================================== *)
(** ** Further properties of the handlers *)
(* ===================================================================== *)

Section Reachability.
Context `{L : Libraries}.

(** Induction over the reachable states. *)
Lemma reachable_invariant (P : ServerState → Prop) :
  P initial_state →
  (∀ inp st st', state_inv st → P st → effect inp st st' → P st') →
  ∀ st, reachable st → P st.
Proof.
  intros Hinit Hstep st [trace ->].
  assert (∀ trace st0, state_inv st0 → P st0 → P (run trace st0)) as Hrun.
  { clear trace. intros trace. induction trace as [|[req inp] trace IH];
      intros st0 Hinv HP; [done|].
    simpl. apply IH; [by apply handle_inv|].
    eapply Hstep; [done..|]. apply handle_effect, Hinv. }
  apply Hrun; [apply initial_state_inv|done].
Qed.

Lemma find_owned_after_delete db id uid :
  find_owned (delete_post_row db id) id uid = None.
Proof.
  apply find_owned_None. intros p Hp Hid. simpl in Hp.
  by apply list_elem_of_filter in Hp as [Hne _].
Qed.

Lemma find_owned_after_insert db uid text :
  db_wf db →
  find_owned (insert_post db uid text) (db_post_seq db) uid
  = Some (mkPost (db_post_seq db) uid text).
Proof.
  intros Hwf. unfold find_owned. simpl. rewrite filter_app, filter_none.
  - simpl. rewrite filter_cons. simpl.
    by rewrite !bool_decide_true by done.
  - intros p Hp HP. apply andb_True in HP as [HP _].
    apply bool_decide_spec in HP. apply (wf_post_ids _ Hwf) in Hp. lia.
Qed.

Lemma delete_after_insert db uid text :
  db_wf db →
  db_posts (delete_post_row (insert_post db uid text) (db_post_seq db))
  = db_posts db.
Proof.
  intros Hwf. simpl. rewrite filter_app, filter_cons. simpl.
  rewrite decide_False by (intros H; by apply H). rewrite app_nil_r.
  apply filter_all. intros p Hp Heq. apply (wf_post_ids _ Hwf) in Hp. lia.
Qed.

(** A login only reads. *)
Lemma handle_login_state request inp st :
  (handle (POST_login request) inp st).2 = tick inp st.
Proof.
  destruct (find_email (st_db st) (login_email request)) as [u|] eqn:Hf.
  - destruct (verify_password u (login_password request)) eqn:Hv.
    + by rewrite (handle_login_ok _ _ _ u).
    + by rewrite (handle_login_wrong_password _ _ _ u).
  - apply find_email_None in Hf. by rewrite handle_login_unknown.
Qed.

(** Reading posts does not write to the database. *)
Lemma handle_read_db authorization inp st u :
  resolves authorization inp st u →
  st_db (handle (GET_posts authorization) inp st).2 = st_db st.
Proof.
  intros Hr.
  destruct (ttl_contains (st_cache st) (user_email u)
              (st_monotonic st + Z.of_N (in_elapsed inp))) eqn:Hc.
  - apply ttl_contains_true in Hc as (l & Hf & Hlt).
    by rewrite (handle_read_hit _ _ _ u l).
  - by rewrite (handle_read_miss _ _ _ u).
Qed.

End Reachability.

(** X6.  A request that is answered with a status of 400 or above, and
    every login whatever its answer, leaves the database and the cache as
    they were: nothing is written on an error path. *)
Theorem errors_and_logins_change_nothing `{L : Libraries} req inp st :
  reachable st →
  400 ≤ resp_status (handle req inp st).1 ∨ (∃ r, req = POST_login r) →
  (handle req inp st).2 = tick inp st.
Proof.
  intros Hreach Hcase. apply reachable_inv in Hreach as [Hwf _].
  destruct req as [r|r|a r|a|a id].
  - destruct Hcase as [Hs|[? ?]]; [|done].
    destruct (find_email (st_db st) (signup_email r)) as [u0|] eqn:Hf.
    + rewrite handle_signup_taken; [done|].
      apply find_email_elem in Hf as [? ?]. by exists u0.
    + apply find_email_None in Hf. destruct (in_commit_ok inp) eqn:Hc.
      * rewrite handle_signup_created in Hs by done. simpl in Hs.
        unfold HTTP_201_CREATED in Hs. lia.
      * by rewrite handle_signup_failed.
  - apply handle_login_state.
  - destruct Hcase as [Hs|[? ?]]; [|done].
    destruct (resolves_cases a inp st) as [(u & Hr & Hu)|[e He]].
    + destruct (in_commit_ok inp) eqn:Hc.
      * destruct (handle_create_committed st inp a r u Hr Hc) as (p & Hrun & _).
        rewrite Hrun in Hs. simpl in Hs. unfold HTTP_201_CREATED in Hs. lia.
      * by rewrite (handle_create_failed _ _ _ _ u).
    + by rewrite (handle_rejected _ a _ _ e).
  - destruct Hcase as [Hs|[? ?]]; [|done].
    destruct (resolves_cases a inp st) as [(u & Hr & Hu)|[e He]].
    + destruct (ttl_contains (st_cache st) (user_email u)
                  (st_monotonic st + Z.of_N (in_elapsed inp))) eqn:Hc.
      * apply ttl_contains_true in Hc as (l & Hf & Hlt).
        rewrite (handle_read_hit _ _ _ u l) in Hs by done. simpl in Hs.
        unfold HTTP_200_OK in Hs. lia.
      * rewrite (handle_read_miss _ _ _ u) in Hs by done. simpl in Hs.
        unfold HTTP_200_OK in Hs. lia.
    + by rewrite (handle_rejected _ a _ _ e).
  - destruct Hcase as [Hs|[? ?]]; [|done].
    destruct (resolves_cases a inp st) as [(u & Hr & Hu)|[e He]].
    + destruct (find_owned (st_db st) id (user_id u)) as [p|] eqn:Hf.
      * destruct (in_commit_ok inp) eqn:Hc.
        -- rewrite (handle_delete_committed _ _ _ _ u p) in Hs by done.
           simpl in Hs. unfold HTTP_204_NO_CONTENT in Hs. lia.
        -- by rewrite (handle_delete_failed _ _ _ _ u p).
      * by rewrite (handle_delete_not_found _ _ _ _ u).
    + by rewrite (handle_rejected _ a _ _ e).
Qed.


(** X8.  After a [DELETE /posts/{id}] answered 204, a second delete of
    the same id, by the same or any other caller, is answered 404 "Post not
    found" and changes nothing. *)
Theorem delete_twice_answers_404 `{L : Libraries}
  st inp authorization u id resp st1 inp' authorization' u' :
  resolves authorization inp st u →
  handle (DELETE_posts authorization id) inp st = (resp, st1) →
  resp_status resp = HTTP_204_NO_CONTENT →
  resolves authorization' inp' st1 u' →
  handle (DELETE_posts authorization' id) inp' st1
  = (mkResponse 404 [] (BodyDetail "Post not found"), tick inp' st1).
Proof.
  intros Hr Hh Hs Hr'.
  apply (handle_delete_not_found _ _ _ _ u'); [done|].
  rewrite (handle_delete_204 _ _ _ _ _ _ _ Hr Hh Hs).
  apply find_owned_after_delete.
Qed.

(** X7.  When the database accepts the commit, [POST /posts] of an
    accepted caller is answered 201 with the id and text of a new row: its
    text is the text of the request, its owner is the caller, its id is the
    id of no row that was there before, and it is appended to the posts
    table; the users table is untouched. *)
Theorem created_post_is_new_and_owned `{L : Libraries}
  st inp authorization u request :
  reachable st →
  resolves authorization inp st u →
  in_commit_ok inp = true →
  ∃ p st1,
    handle (POST_posts authorization request) inp st
      = (mkResponse 201 [] (BodyPost (post_id p) (post_text p)), st1) ∧
    post_text p = request_text request ∧
    post_user_id p = user_id u ∧
    (∀ q, q ∈ db_posts (st_db st) → post_id q ≠ post_id p) ∧
    db_posts (st_db st1) = db_posts (st_db st) ++ [p] ∧
    db_users (st_db st1) = db_users (st_db st).
Proof.
  intros Hreach Hr Hc. apply reachable_inv in Hreach as [Hwf _].
  destruct (handle_create_committed st inp authorization request u Hr Hc)
    as (p & Hrun & Hp).
  rewrite (Hp Hwf) in *. eexists _, _. split; [exact Hrun|].
  repeat split; try done.
  intros q Hq Heq. apply (wf_post_ids _ Hwf) in Hq. simpl in Heq. lia.
Qed.

(** X9.  Deleting the post whose creation was just answered 201, under
    the id of that answer, is answered 204 and leaves the posts table as it
    was before the post was created. *)
Theorem create_then_delete_restores_posts `{L : Libraries}
  st inp authorization u request resp st1 inp' authorization' :
  reachable st →
  resolves authorization inp st u →
  handle (POST_posts authorization request) inp st = (resp, st1) →
  resp_status resp = HTTP_201_CREATED →
  resolves authorization' inp' st1 u →
  in_commit_ok inp' = true →
  ∃ id st2,
    resp_body resp = BodyPost id (request_text request) ∧
    handle (DELETE_posts authorization' id) inp' st1
      = (mkResponse 204 [] BodyEmpty, st2) ∧
    db_posts (st_db st2) = db_posts (st_db st) ∧
    db_users (st_db st2) = db_users (st_db st).
Proof.
  intros Hreach Hr Hh Hs Hr' Hc. apply reachable_inv in Hreach as [Hwf _].
  destruct (handle_create_201 _ _ _ _ _ _ _ Hwf Hr Hh Hs) as [-> Hdb].
  exists (db_post_seq (st_db st)). eexists. split; [done|].
  rewrite (handle_delete_committed _ _ _ _ u
             (mkPost (db_post_seq (st_db st)) (user_id u) (request_text request)));
    [|done| |done].
  - split; [done|]. simpl. rewrite Hdb. split; [|done].
    by apply (delete_after_insert (st_db st)).
  - rewrite Hdb. by apply find_owned_after_insert.
Qed.

(** X10.  The posts of a user are changed by no request other than a
    protected request that resolves to that user: signups, logins,
    rejected requests and the requests of other users leave them as they
    are. *)
Theorem posts_change_only_by_owner `{L : Libraries} st inp req u :
  reachable st →
  u ∈ db_users (st_db st) →
  (∀ authorization, protected req = Some authorization →
                    ¬ resolves authorization inp st u) →
  user_posts (st_db (handle req inp st).2) (user_id u)
  = user_posts (st_db st) (user_id u).
Proof.
  intros Hreach Hu Hother. apply reachable_inv in Hreach as [Hwf _].
  assert (∀ a u', protected req = Some a → resolves a inp st u' →
                  u' ∈ db_users (st_db st) → user_id u' ≠ user_id u) as Hne.
  { intros a u' Hp Hr Hu' Hid.
    assert (u' = u) as -> by
      by apply (NoDup_fmap_key user_id (db_users (st_db st))); [apply Hwf|..].
    by apply (Hother a). }
  destruct req as [r|r|a r|a|a id].
  - destruct (find_email (st_db st) (signup_email r)) as [u0|] eqn:Hf.
    + rewrite handle_signup_taken; [done|].
      apply find_email_elem in Hf as [? ?]. by exists u0.
    + apply find_email_None in Hf. destruct (in_commit_ok inp) eqn:Hc.
      * by rewrite handle_signup_created.
      * by rewrite handle_signup_failed.
  - by rewrite handle_login_state.
  - destruct (resolves_cases a inp st) as [(u' & Hr & Hu')|[e He]].
    + destruct (in_commit_ok inp) eqn:Hc.
      * destruct (handle_create_committed st inp a r u' Hr Hc) as (p & -> & _).
        simpl. rewrite user_posts_insert_post, decide_False, app_nil_r; [done|].
        by apply (Hne a).
      * by rewrite (handle_create_failed _ _ _ _ u').
    + by rewrite (handle_rejected _ a _ _ e).
  - destruct (resolves_cases a inp st) as [(u' & Hr & Hu')|[e He]].
    + by rewrite (handle_read_db _ _ _ u').
    + by rewrite (handle_rejected _ a _ _ e).
  - destruct (resolves_cases a inp st) as [(u' & Hr & Hu')|[e He]].
    + destruct (find_owned (st_db st) id (user_id u')) as [p|] eqn:Hf.
      * destruct (in_commit_ok inp) eqn:Hc.
        -- rewrite (handle_delete_committed _ _ _ _ u' p) by done. simpl.
           apply find_owned_Some in Hf as (Hp & Hid & Hown).
           apply (user_posts_delete_other _ _ p); try done.
           rewrite Hown. by apply (Hne a).
        -- by rewrite (handle_delete_failed _ _ _ _ u' p).
      * by rewrite (handle_delete_not_found _ _ _ _ u').
    + by rewrite (handle_rejected _ a _ _ e).
Qed.

(* ===================================================================== *)
(** ** Invariants of the reachable states *)
(* ===================================================================== *)

Lemma ttl_evict_length (c : TTLCache) :
  (length (ttl_evict c) + 1 ≤ cache_maxsize)%nat.
Proof.
  induction c as [|l c IH].
  - simpl. unfold cache_maxsize. lia.
  - simpl ttl_evict. case_bool_decide as Hfull; [done|]. simpl in *. lia.
Qed.

Lemma ttl_setitem_length (c : TTLCache) k v t :
  (length c ≤ cache_maxsize)%nat →
  (length (ttl_setitem c k v t) ≤ cache_maxsize)%nat.
Proof.
  intros Hc. unfold ttl_setitem. rewrite length_app. simpl.
  destruct (links_find k (ttl_expire c t)) as [l|] eqn:Hf.
  - apply links_find_elem in Hf as [Hin Hk].
    pose proof (length_filter_lt (λ l, link_key l ≠ k) (ttl_expire c t) l Hin
                  ltac:(intros H; by apply H)) as Hlt.
    pose proof (length_filter (λ l, t < link_expires l) c) as Hle.
    unfold links_remove, ttl_expire in *. lia.
  - pose proof (length_filter (λ l, link_key l ≠ k) (ttl_evict (ttl_expire c t))).
    pose proof (ttl_evict_length (ttl_expire c t)).
    unfold links_remove. lia.
Qed.

Lemma ttl_pop_length (c : TTLCache) k t : (length (ttl_pop c k t) ≤ length c)%nat.
Proof.
  unfold ttl_pop. destruct (ttl_contains c k t); [|done]. apply length_filter.
Qed.

Lemma links_move_length (c : TTLCache) k l :
  links_find k c = Some l →
  (length (links_remove k c ++ [l]) ≤ length c)%nat.
Proof.
  intros Hf. apply links_find_elem in Hf as [Hin Hk]. rewrite length_app. simpl.
  pose proof (length_filter_lt (λ l, link_key l ≠ k) c l Hin
                ltac:(intros H; by apply H)).
  unfold links_remove. lia.
Qed.

Lemma email_registered_mono inp st st' email :
  effect inp st st' →
  email_registered (st_db st) email → email_registered (st_db st') email.
Proof.
  intros Heff (u & Hu & He). exists u. split; [|done]. by eapply effect_users.
Qed.

(** X11.  In every reachable state no two rows of the users table share
    an e-mail address or an id, and no two rows of the posts table share an
    id. *)
Theorem reachable_rows_are_unique `{L : Libraries} st :
  reachable st →
  (∀ u1 u2, u1 ∈ db_users (st_db st) → u2 ∈ db_users (st_db st) →
            user_email u1 = user_email u2 → u1 = u2) ∧
  (∀ u1 u2, u1 ∈ db_users (st_db st) → u2 ∈ db_users (st_db st) →
            user_id u1 = user_id u2 → u1 = u2) ∧
  (∀ p1 p2, p1 ∈ db_posts (st_db st) → p2 ∈ db_posts (st_db st) →
            post_id p1 = post_id p2 → p1 = p2).
Proof.
  intros Hreach. apply reachable_inv in Hreach as [Hwf _].
  split; [|split]; intros x y Hx Hy Heq.
  - by apply (NoDup_fmap_key user_email (db_users (st_db st))); [apply Hwf|..].
  - by apply (NoDup_fmap_key user_id (db_users (st_db st))); [apply Hwf|..].
  - by apply (NoDup_fmap_key post_id (db_posts (st_db st))); [apply Hwf|..].
Qed.

(** X12.  In every reachable state the owner id of every post is the id
    of a row of the users table. *)
Theorem every_post_has_an_owner `{L : Libraries} st p :
  reachable st →
  p ∈ db_posts (st_db st) →
  ∃ u, u ∈ db_users (st_db st) ∧ user_id u = post_user_id p.
Proof.
  intros Hreach. revert p.
  apply (reachable_invariant
           (λ st, ∀ p, p ∈ db_posts (st_db st) →
                       ∃ u, u ∈ db_users (st_db st) ∧ user_id u = post_user_id p));
    [| |done].
  - intros p Hp. by apply not_elem_of_nil in Hp.
  - clear st Hreach. intros inp st st' _ IH Heff p Hp.
    assert (p ∈ db_posts (st_db st) →
            ∃ u, u ∈ db_users (st_db st') ∧ user_id u = post_user_id p) as Hold.
    { intros Hin. destruct (IH p Hin) as (u & Hu & Hid).
      exists u. split; [by eapply effect_users|done]. }
    destruct Heff as [|email hashed Hfresh|u text Hu|u l Hf|u Hu|u id q Hu Hf];
      simpl in *; try by apply Hold.
    + apply elem_of_app in Hp as [Hp|Hp]; [by apply Hold|].
      apply list_elem_of_singleton in Hp as ->. by exists u.
    + apply list_elem_of_filter in Hp as [_ Hp]. by apply Hold.
Qed.

(** X13.  In every reachable state the cache holds at most 1000 entries,
    no entry expires later than 300 seconds after the last request, and
    every key is the e-mail address of a row of the users table. *)
Theorem cache_is_bounded `{L : Libraries} st :
  reachable st →
  (length (st_cache st) ≤ 1000)%nat ∧
  ∀ l, l ∈ st_cache st →
       link_expires l ≤ st_monotonic st + 300 ∧
       email_registered (st_db st) (link_key l).
Proof.
  change 1000%nat with cache_maxsize. change 300 with cache_ttl.
  apply (reachable_invariant
           (λ st, (length (st_cache st) ≤ cache_maxsize)%nat ∧
                  ∀ l, l ∈ st_cache st →
                       link_expires l ≤ st_monotonic st + cache_ttl ∧
                       email_registered (st_db st) (link_key l))).
  - split; [simpl; lia|]. intros l Hl. by apply not_elem_of_nil in Hl.
  - clear st. intros inp st st' _ [Hlen Hent] Heff.
    pose proof (N2Z.is_nonneg (in_elapsed inp)) as Hel.
    assert (∀ l, l ∈ st_cache st →
                 link_expires l ≤ st_monotonic st + Z.of_N (in_elapsed inp) + cache_ttl ∧
                 email_registered (st_db st') (link_key l)) as Hold.
    { intros l Hl. destruct (Hent l Hl) as [Hexp Hreg]. split; [lia|].
      by eapply email_registered_mono. }
    destruct Heff as [|email hashed Hfresh|u text Hu|u l Hf|u Hu|u id q Hu Hf];
      simpl in *.
    + split; [done|]. intros l Hl. by apply Hold.
    + split; [done|]. intros l Hl. by apply Hold.
    + split; [etrans; [apply ttl_pop_length|done]|].
      intros l Hl. apply ttl_pop_elem in Hl. by apply Hold.
    + split; [etrans; [by apply links_move_length|done]|].
      intros l' Hl'. apply Hold. apply elem_of_app in Hl' as [Hl'|Hl'].
      * by apply links_remove_elem in Hl' as [_ ?].
      * apply list_elem_of_singleton in Hl' as ->.
        by apply links_find_elem in Hf as [? _].
    + split; [by apply ttl_setitem_length|].
      intros l Hl. apply ttl_setitem_elem in Hl as [->|(Hin & _ & _)].
      * simpl. split; [lia|]. by exists u.
      * by apply Hold.
    + split; [etrans; [apply ttl_pop_length|done]|].
      intros l Hl. apply ttl_pop_elem in Hl. by apply Hold.
Qed.

(** X4.  For a non-zero ttl T (negative ones included),
    [create_access_token] returns a token that [decode_jwt_token] accepts,
    returning subject and expiry, at every time before issue time plus T,
    and rejects with 401 "Token has expired" and the [WWW-Authenticate:
    Bearer] header at every time after it.  (The token library is taken by
    its contract.) *)
Theorem nonzero_ttl_token_lifetime `{L : Libraries} sub T env w env' w' :
  jwt_roundtrip L →
  T ≠ 0 →
  ∃ token,
    create_access_token {["sub" := JStr sub]} (Some T) env w = (Return token, w) ∧
    (env_utcnow env' < env_utcnow env + T →
     decode_jwt_token token env' w' =
       (Return (<["exp" := JNum (env_utcnow env + T)]> {["sub" := JStr sub]}),
        add_log w' [EvJwtDecode token])) ∧
    (env_utcnow env + T < env_utcnow env' →
     decode_jwt_token token env' w' =
       (Raise (HTTPException 401 "Token has expired"
                 [("WWW-Authenticate", "Bearer")]),
        add_log w' [EvJwtDecode token])).
Proof.
  intros Hrt HT. eexists. split; [by apply create_access_token_ttl|].
  rewrite decode_jwt_token_run.
  destruct (Hrt sub (env_utcnow env + T) (env_utcnow env')) as [Hok Hex].
  split; intros Hlt; [by rewrite Hok|by rewrite Hex].
Qed.

(** X14.  A signup whose commit the database refuses is answered 500 "Error
    during signup process" and stores nothing; the same signup, repeated
    when the database accepts the commit, is answered 201 and adds the
    account. *)
Theorem refused_signup_can_be_retried `{L : Libraries} st inp inp' request :
  reachable st →
  ¬ email_registered (st_db st) (signup_email request) →
  in_commit_ok inp = false →
  in_commit_ok inp' = true →
  ∃ st1 st2 u,
    handle (POST_signup request) inp st
      = (mkResponse 500 [] (BodyDetail "Error during signup process"), st1) ∧
    st_db st1 = st_db st ∧
    st_cache st1 = st_cache st ∧
    handle (POST_signup request) inp' st1
      = (token_response 201 (signup_email request) (in_utcnow inp'), st2) ∧
    db_users (st_db st2) = db_users (st_db st) ++ [u] ∧
    user_email u = signup_email request ∧
    user_hashed_password u
      = pwd_context_hash (in_salt inp') (signup_password request).
Proof.
  intros Hreach Hfresh Hc Hc'. apply reachable_inv in Hreach as [Hwf _].
  eexists _, _, _. split; [by apply handle_signup_failed|].
  split; [done|]. split; [done|].
  split; [by apply handle_signup_created|]. done.
Qed.

(* ===================================================================== *)
(** ** Instances of the further properties *)
(* ===================================================================== *)

Lemma issued_token_is_good_for_one_hour_witness :
  let i := mkInput 5 1 true "salt" in
  let r := mkSignupRequest "a@x.com" "password1" in
  let st1 := (handle (L := Reference.libs) (POST_signup r) i initial_state).2 in
  ∃ u, u ∈ db_users (st_db st1) ∧
       resolves (L := Reference.libs)
         ("Bearer " +:+ issued_token (L := Reference.libs) "a@x.com" 5)
         (mkInput 100 1 true "") st1 u.
Proof.
  intros i r st1.
  destruct (issued_token_is_good_for_one_hour (L := Reference.libs)
              initial_state i (POST_signup r)
              (handle (L := Reference.libs) (POST_signup r) i initial_state).1 st1
              (mkTokenResponse (issued_token (L := Reference.libs) "a@x.com" 5)
                               "bearer")
              reference_roundtrip (ex_intro _ [] eq_refl)
              (or_introl (ex_intro _ r eq_refl)) (surjective_pairing _)
              ltac:(vm_compute; reflexivity) ltac:(vm_compute; reflexivity))
    as (u & Hu & _ & _ & Hall).
  exists u. split; [exact Hu|].
  apply (proj1 (Hall [] (mkInput 100 1 true ""))). simpl. lia.
Defined.

Lemma nonzero_ttl_token_lifetime_witness :
  ∃ token,
    create_access_token (L := Reference.libs) {["sub" := JStr "a@x.com"]} (Some 60)
      (mkEnv 100 0 true "") (request_world initial_state)
      = (Return token, request_world initial_state) ∧
    decode_jwt_token (L := Reference.libs) token
      (mkEnv 120 0 true "") (request_world initial_state)
      = (Return (<["exp" := JNum (100 + 60)]> {["sub" := JStr "a@x.com"]}),
         add_log (request_world initial_state) [EvJwtDecode token]).
Proof.
  destruct (nonzero_ttl_token_lifetime (L := Reference.libs) "a@x.com" 60
              (mkEnv 100 0 true "") (request_world initial_state)
              (mkEnv 120 0 true "") (request_world initial_state)
              reference_roundtrip ltac:(discriminate))
    as (token & Hc & Hok & _).
  exists token. split; [exact Hc|]. apply Hok. simpl. lia.
Defined.

(** A server with one account and one post of that account. *)
Lemma reference_state_reachable :
  reachable (L := Reference.libs)
    (run (L := Reference.libs)
       [(POST_signup (mkSignupRequest "a@x.com" "password1"),
         mkInput 5 1 true "salt");
        (POST_posts "Bearer +1111111111.a@x.com" (mkPostRequest "hi"),
         mkInput 5 1 true "salt")] initial_state).
Proof. by eexists. Qed.


Lemma errors_and_logins_change_nothing_witness :
  (handle (L := Reference.libs) (GET_posts "Token abc") (mkInput 5 1 true "")
     initial_state).2
  = tick (mkInput 5 1 true "") initial_state.
Proof.
  apply (errors_and_logins_change_nothing (L := Reference.libs)
           (GET_posts "Token abc") (mkInput 5 1 true "") initial_state
           (ex_intro _ [] eq_refl)).
  left. vm_compute. discriminate.
Defined.

Lemma created_post_is_new_and_owned_witness :
  let i := mkInput 5 1 true "salt" in
  let a := "Bearer +1111111111.a@x.com" in
  let st := run (L := Reference.libs)
              [(POST_signup (mkSignupRequest "a@x.com" "password1"), i);
               (POST_posts a (mkPostRequest "hi"), i)] initial_state in
  ∃ p st1,
    handle (L := Reference.libs) (POST_posts a (mkPostRequest "again")) i st
      = (mkResponse 201 [] (BodyPost (post_id p) (post_text p)), st1) ∧
    post_text p = "again" ∧
    post_user_id p = 1 ∧
    (∀ q, q ∈ db_posts (st_db st) → post_id q ≠ post_id p) ∧
    db_posts (st_db st1) = db_posts (st_db st) ++ [p] ∧
    db_users (st_db st1) = db_users (st_db st).
Proof.
  intros i a st.
  apply (created_post_is_new_and_owned (L := Reference.libs) st i a
           (mkUser 1 "a@x.com" "$password1") (mkPostRequest "again")
           reference_state_reachable).
  - vm_compute. reflexivity.
  - reflexivity.
Defined.

Lemma delete_twice_answers_404_witness :
  let i := mkInput 5 1 true "salt" in
  let a := "Bearer +1111111111.a@x.com" in
  let st := run (L := Reference.libs)
              [(POST_signup (mkSignupRequest "a@x.com" "password1"), i);
               (POST_posts a (mkPostRequest "hi"), i)] initial_state in
  let st1 := (handle (L := Reference.libs) (DELETE_posts a 1) i st).2 in
  handle (L := Reference.libs) (DELETE_posts a 1) i st1
  = (mkResponse 404 [] (BodyDetail "Post not found"), tick i st1).
Proof.
  intros i a st st1.
  apply (delete_twice_answers_404 (L := Reference.libs) st i a
           (mkUser 1 "a@x.com" "$password1") 1
           (handle (L := Reference.libs) (DELETE_posts a 1) i st).1 st1 i a
           (mkUser 1 "a@x.com" "$password1")).
  - vm_compute. reflexivity.
  - apply surjective_pairing.
  - vm_compute. reflexivity.
  - vm_compute. reflexivity.
Defined.

Lemma create_then_delete_restores_posts_witness :
  let i := mkInput 5 1 true "salt" in
  let a := "Bearer +1111111111.a@x.com" in
  let st := run (L := Reference.libs)
              [(POST_signup (mkSignupRequest "a@x.com" "password1"), i);
               (POST_posts a (mkPostRequest "hi"), i)] initial_state in
  let st1 := (handle (L := Reference.libs) (POST_posts a (mkPostRequest "again"))
                i st).2 in
  ∃ id st2,
    resp_body (handle (L := Reference.libs) (POST_posts a (mkPostRequest "again"))
                 i st).1 = BodyPost id "again" ∧
    handle (L := Reference.libs) (DELETE_posts a id) i st1
      = (mkResponse 204 [] BodyEmpty, st2) ∧
    db_posts (st_db st2) = db_posts (st_db st) ∧
    db_users (st_db st2) = db_users (st_db st).
Proof.
  intros i a st st1.
  apply (create_then_delete_restores_posts (L := Reference.libs) st i a
           (mkUser 1 "a@x.com" "$password1") (mkPostRequest "again")
           (handle (L := Reference.libs) (POST_posts a (mkPostRequest "again"))
              i st).1 st1 i a reference_state_reachable).
  - vm_compute. reflexivity.
  - apply surjective_pairing.
  - vm_compute. reflexivity.
  - vm_compute. reflexivity.
  - reflexivity.
Defined.

Lemma posts_change_only_by_owner_witness :
  let i := mkInput 5 1 true "salt" in
  let a := "Bearer +1111111111.a@x.com" in
  let st := run (L := Reference.libs)
              [(POST_signup (mkSignupRequest "a@x.com" "password1"), i);
               (POST_posts a (mkPostRequest "hi"), i)] initial_state in
  user_posts
    (st_db (handle (L := Reference.libs)
              (POST_signup (mkSignupRequest "b@x.com" "password2")) i st).2) 1
  = user_posts (st_db st) 1.
Proof.
  intros i a st.
  apply (posts_change_only_by_owner (L := Reference.libs) st i
           (POST_signup (mkSignupRequest "b@x.com" "password2"))
           (mkUser 1 "a@x.com" "$password1") reference_state_reachable).
  - vm_compute. apply list_elem_of_singleton. reflexivity.
  - intros authorization Hp. discriminate Hp.
Defined.

Lemma reachable_rows_are_unique_witness :
  let st := run (L := Reference.libs)
              [(POST_signup (mkSignupRequest "a@x.com" "password1"),
                mkInput 5 1 true "salt");
               (POST_posts "Bearer +1111111111.a@x.com" (mkPostRequest "hi"),
                mkInput 5 1 true "salt")] initial_state in
  (∀ u1 u2, u1 ∈ db_users (st_db st) → u2 ∈ db_users (st_db st) →
            user_email u1 = user_email u2 → u1 = u2) ∧
  (∀ u1 u2, u1 ∈ db_users (st_db st) → u2 ∈ db_users (st_db st) →
            user_id u1 = user_id u2 → u1 = u2) ∧
  (∀ p1 p2, p1 ∈ db_posts (st_db st) → p2 ∈ db_posts (st_db st) →
            post_id p1 = post_id p2 → p1 = p2).
Proof.
  intros st.
  exact (reachable_rows_are_unique (L := Reference.libs) st
           reference_state_reachable).
Defined.

Lemma every_post_has_an_owner_witness :
  let st := run (L := Reference.libs)
              [(POST_signup (mkSignupRequest "a@x.com" "password1"),
                mkInput 5 1 true "salt");
               (POST_posts "Bearer +1111111111.a@x.com" (mkPostRequest "hi"),
                mkInput 5 1 true "salt")] initial_state in
  ∃ u, u ∈ db_users (st_db st) ∧ user_id u = 1.
Proof.
  intros st.
  apply (every_post_has_an_owner (L := Reference.libs) st (mkPost 1 1 "hi")
           reference_state_reachable).
  vm_compute. apply list_elem_of_singleton. reflexivity.
Defined.

Lemma cache_is_bounded_witness :
  let st := run (L := Reference.libs)
              [(POST_signup (mkSignupRequest "a@x.com" "password1"),
                mkInput 5 1 true "salt");
               (GET_posts "Bearer +1111111111.a@x.com", mkInput 5 1 true "salt")]
              initial_state in
  (length (st_cache st) ≤ 1000)%nat ∧
  ∀ l, l ∈ st_cache st →
       link_expires l ≤ st_monotonic st + 300 ∧
       email_registered (st_db st) (link_key l).
Proof.
  intros st.
  apply (cache_is_bounded (L := Reference.libs) st). by eexists.
Defined.

Lemma refused_signup_can_be_retried_witness :
  let r := mkSignupRequest "a@x.com" "password1" in
  ∃ st1 st2 u,
    handle (L := Reference.libs) (POST_signup r) (mkInput 5 1 false "salt")
      initial_state
      = (mkResponse 500 [] (BodyDetail "Error during signup process"), st1) ∧
    st_db st1 = st_db initial_state ∧
    st_cache st1 = st_cache initial_state ∧
    handle (L := Reference.libs) (POST_signup r) (mkInput 6 1 true "salt") st1
      = (token_response (L := Reference.libs) 201 "a@x.com" 6, st2) ∧
    db_users (st_db st2) = db_users (st_db initial_state) ++ [u] ∧
    user_email u = "a@x.com" ∧
    user_hashed_password u = Reference.hash "salt" "password1".
Proof.
  intros r.
  apply (refused_signup_can_be_retried (L := Reference.libs) initial_state
           (mkInput 5 1 false "salt") (mkInput 6 1 true "salt") r
           (ex_intro _ [] eq_refl)).
  - intros (u & Hu & _). by apply not_elem_of_nil in Hu.
  - reflexivity.
  - reflexivity.
Defined.
